(** * WebRTC dialing through a signaling service (rpc/wrtc_client.go,
      rpc/webrtc/peer.go)

    The development has two parts.

    - [Translator]: the candidate translator of rpc/webrtc/peer.go
      ([iceCandidateInitToProto], [iceCandidateFromProto]), with Go's
      fixed-width integer conversions written out on [Z].
    - [Dial]: [dialWebRTC] and [newPeerConnectionForClient] as a labelled
      transition system.  The orchestrating goroutine, the background
      receive goroutine ([exchangeCandidates]) and the invocations of the
      [OnICECandidate] hook each have a program counter; a transition is
      one call of a collaborator (signaling client, peer connection,
      channel wrapper) with the local bookkeeping around it, or one
      operation on the synchronisation state (contexts, [errCh],
      [remoteDescSet], the [sync.Once]).  What a collaborator returns is
      carried by the action, so a run fixes both the interleaving and the
      environment.  Hook invocations are independent of each other, which
      covers an engine that delivers candidates one at a time.  The calls
      are logged in a trace, against which the temporal properties are
      stated. *)

From Stdlib Require Import ZArith Lia.
From stdpp Require Import base tactics option list strings gmap.

(* ===================================================================== *)
(** * The candidate translator *)
(* ===================================================================== *)

Module Translator.

(** Go's [uint16(x)] and [uint32(x)] conversions between unsigned types. *)
Definition uint16 (x : Z) : Z := (x mod 2 ^ 16)%Z.
Definition uint32 (x : Z) : Z := (x mod 2 ^ 32)%Z.

Definition is_uint16 (x : Z) : Prop := (0 <= x < 2 ^ 16)%Z.
Definition is_uint32 (x : Z) : Prop := (0 <= x < 2 ^ 32)%Z.

(** [webrtc.ICECandidateInit]: a pointer field is an [option]. *)
Record ICECandidateInit := {
  Candidate : string;
  SDPMid : option string;
  SDPMLineIndex : option Z;          (* *uint16 *)
  UsernameFragment : option string
}.

(** [webrtcpb.ICECandidate], the wire form. *)
Record pbICECandidate := {
  pbCandidate : string;
  SdpMid : option string;
  SdpmLineIndex : option Z;          (* *uint32 *)
  pbUsernameFragment : option string
}.

(** The values the Go types admit. *)
Definition init_typed (ij : ICECandidateInit) : Prop :=
  forall v, SDPMLineIndex ij = Some v -> is_uint16 v.

Definition proto_typed (p : pbICECandidate) : Prop :=
  forall v, SdpmLineIndex p = Some v -> is_uint32 v.

(** peer.go, [iceCandidateInitToProto]. *)
Definition iceCandidateInitToProto (ij : ICECandidateInit) : pbICECandidate :=
  {| pbCandidate := Candidate ij;
     SdpMid := match SDPMid ij with
               | Some val => Some val
               | None => None
               end;
     SdpmLineIndex := match SDPMLineIndex ij with
                      | Some v => Some (uint32 v)
                      | None => None
                      end;
     pbUsernameFragment := match UsernameFragment ij with
                           | Some val => Some val
                           | None => None
                           end |}.

(** peer.go, [iceCandidateFromProto] (on a non-nil message; the caller's
    nil case is in [Dial]). *)
Definition iceCandidateFromProto (i : pbICECandidate) : ICECandidateInit :=
  {| Candidate := pbCandidate i;
     SDPMid := match SdpMid i with
               | Some val => Some val
               | None => None
               end;
     SDPMLineIndex := match SdpmLineIndex i with
                      | Some v => Some (uint16 v)
                      | None => None
                      end;
     UsernameFragment := match pbUsernameFragment i with
                         | Some val => Some val
                         | None => None
                         end |}.

(** [webrtc.ICECandidate] of the negotiation engine.  The client reads it
    only through its [ToJSON] method, so a candidate is represented by the
    value that method returns. *)
Record ICECandidate := { ToJSON : ICECandidateInit }.

(** peer.go, [iceCandidateToProto]. *)
Definition iceCandidateToProto (i : ICECandidate) : pbICECandidate :=
  iceCandidateInitToProto (ToJSON i).

(** The four fields agree between a local and a wire candidate. *)
Definition same_fields (ij : ICECandidateInit) (p : pbICECandidate) : Prop :=
  Candidate ij = pbCandidate p /\
  SDPMid ij = SdpMid p /\
  SDPMLineIndex ij = SdpmLineIndex p /\
  UsernameFragment ij = pbUsernameFragment p.

(** The translator property as the specification words it: both directions
    keep the four fields, and local -> wire -> local is the identity. *)
Definition preserves_all_fields_both_ways : Prop :=
  (forall ij, init_typed ij -> same_fields ij (iceCandidateInitToProto ij)) /\
  (forall p, proto_typed p -> same_fields (iceCandidateFromProto p) p) /\
  (forall ij, init_typed ij ->
     iceCandidateFromProto (iceCandidateInitToProto ij) = ij).

(** A wire candidate whose line index is a [uint32] that is no [uint16]. *)
Definition wide_index_candidate : pbICECandidate :=
  {| pbCandidate := "candidate:1 1 udp 2130706431 192.0.2.1 50000 typ host";
     SdpMid := Some "0"%string; SdpmLineIndex := Some 65536%Z;
     pbUsernameFragment := None |}.

End Translator.

(* ===================================================================== *)
(** * The dial attempt *)
(* ===================================================================== *)

Module Dial.
Import Translator.

(** ** Errors *)

(** The two values of [ctx.Err()] once a context has ended. *)
Inductive ctxError := Canceled | DeadlineExceeded.

Inductive error :=
| ErrNoWebRTCSignaler                      (* wrtc_client.go:24 *)
| ErrContext (e : ctxError)                (* context.Canceled, context.DeadlineExceeded *)
| ErrEOF                                   (* io.EOF *)
| ErrInitTwice                             (* "got init stage more than once" *)
| ErrUpdateBeforeInit                      (* "got update stage before init stage" *)
| ErrUuidMismatch (have want : string)     (* "uuid mismatch; have=%q want=%q" *)
| ErrUnexpectedStage                       (* "unexpected stage %T" *)
| ErrPanic                                 (* fmt.Errorf("%w", recovered) *)
| ErrStatus (code : N) (msg : string)      (* an error carrying a gRPC status *)
| ErrOther (msg : string).                 (* any other error of a collaborator *)

#[global] Instance ctxError_eq_dec : EqDecision ctxError.
Proof. solve_decision. Defined.

#[global] Instance error_eq_dec : EqDecision error.
Proof. solve_decision. Defined.

(** A Go [error] value is the list of its components: [nil] is the empty
    list, a plain error a singleton, and go.uber.org/multierr keeps its
    combined errors flat and in order. *)
Abbreviation goerror := (list error).

Definition multierr_Combine (a b : goerror) : goerror := a ++ b.

Definition errors_Is (err : goerror) (target : error) : bool :=
  bool_decide (target ∈ err).

Definition codes_OK : N := 0.
Definition codes_Unknown : N := 2.
Definition codes_Unimplemented : N := 12.

(** [status.FromError]: the status code and whether [err] carried one. *)
Definition status_FromError (err : goerror) : N * bool :=
  match err with
  | [] => (codes_OK, true)
  | [ErrStatus c _] => (c, true)
  | _ => (codes_Unknown, false)
  end.

(** ** Messages *)

(** The [Update] oneof of [webrtcpb.CallUpdateRequest].  The error case
    carries [ErrorToStatus(callErr).Proto()], kept as the error it is
    computed from. *)
Inductive CallUpdate :=
| Update_Candidate (c : pbICECandidate)
| Update_Done
| Update_Error (callErr : goerror).

Record CallUpdateRequest := { Uuid : string; Update : CallUpdate }.

Record CallResponseInitStage := { Sdp : string }.
Record CallResponseUpdateStage := { updCandidate : option pbICECandidate }.

(** The [Stage] oneof of [webrtcpb.CallResponse]; the message pointers may
    be nil, and [StageUnknown] stands for a nil or unknown stage. *)
Inductive Stage :=
| StageInit (init : option CallResponseInitStage)
| StageUpdate (upd : option CallResponseUpdateStage)
| StageUnknown.

Record CallResponse := { respUuid : string; respStage : Stage }.

(** What [pc.LocalDescription()] holds for the signaling exchange: the
    offer with the candidates gathered so far. *)
Record SessionDescription := { sdpCandidates : list ICECandidate }.

Inductive webrtcClientChannel := clientCh.

(** ** Trace *)

(** The calls made on the collaborators.  [EvCallUpdate] records
    [exchangeCtx.Err()] at the moment of the call; calls that can fail
    record what they returned. *)
Inductive Event :=
| EvCall (sdp : SessionDescription)
| EvRecv (m : CallResponse)
| EvCallUpdate (ctx : option ctxError) (req : CallUpdateRequest)
| EvSetRemoteDescription (sdp : string) (r : goerror)
| EvAddICECandidate (c : ICECandidateInit) (r : goerror)
| EvChannelClose (r : goerror)
| EvPeerClose (r : goerror)
| EvConnClose (r : goerror).

(** ** Program counters *)

(** The deferred calls of [dialWebRTC] (and of the factory) still to run. *)
Inductive Deferred := D_exchangeCancel | D_pcClose | D_connClose.

Inductive MainPC :=
| M_dialDirectGRPC                   (* wrtc_client.go:73 *)
| M_OptionalWebRTCConfig             (* :87 *)
| M_newWebRTCAPI                     (* peer.go:55 *)
| M_NewPeerConnection                (* peer.go:60 *)
| M_CreateDataChannel                (* peer.go:74 *)
| M_F_CreateOffer                    (* peer.go:85 *)
| M_F_SetLocalDescription            (* peer.go:91 *)
| M_F_WaitGather                     (* peer.go:101 *)
| M_CreateOffer                      (* wrtc_client.go:136 *)
| M_OnICECandidate                   (* :141 *)
| M_SetLocalDescription              (* :167 *)
| M_encodeSDP                        (* :173 *)
| M_Call (encodedSDP : SessionDescription)   (* :178 *)
| M_spawn                            (* :187-250 *)
| M_doCall                           (* :253 *)
| M_fail (callErr : goerror)         (* :264 *)
| M_sendDone                         (* :275 *)
| M_Returning (ch : option webrtcClientChannel) (err : goerror)
              (ds : list Deferred)
| M_Returned (ch : option webrtcClientChannel) (err : goerror).

Inductive ExchPC :=
| E_NotStarted
| E_Loop (haveInit : bool)                     (* :192 *)
| E_Recv (haveInit : bool)                     (* :199 *)
| E_Decode (init : option CallResponseInitStage)   (* :214 *)
| E_SetRemoteDescription (sdp : string)        (* :218 *)
| E_CloseRemoteDescSet                         (* :222 *)
| E_VanillaDone                                (* :225 *)
| E_AddICECandidate (cand : ICECandidateInit)  (* :235 *)
| E_SendErr (e : goerror)                      (* :246, :249 *)
| E_Done.

Inductive HookPC :=
| H_Entry                            (* :142 *)
| H_Select                           (* :145 *)
| H_Send                             (* :150, :156 *)
| H_SendErr (e : goerror)            (* :152, :163 *)
| H_Done.

(** One invocation of the [OnICECandidate] hook; [None] is the nil
    candidate that marks the end of gathering. *)
Record Hook := { hook_arg : option ICECandidate; hook_pc : HookPC }.

(** ** State *)

Record State := {
  DisableTrickleICE : bool;          (* dOptsCopy.webrtcOpts.DisableTrickleICE *)
  trace : list Event;                (* newest first *)
  uuid : string;
  sendDoneErrorOnce : bool;          (* sync.Once: already run *)
  remoteDescSet : bool;              (* the channel is closed *)
  ctxErr : option ctxError;          (* ctx.Err() *)
  exchangeCtxErr : option ctxError;  (* exchangeCtx.Err() *)
  hookInstalled : bool;
  localDescSet : bool;
  gathered : list ICECandidate;
  gatherComplete : bool;
  main : MainPC;
  exch : ExchPC;
  hooks : list Hook
}.

Definition set_trace (v : list Event) (s : State) : State :=
  {| DisableTrickleICE := DisableTrickleICE s; trace := v; uuid := uuid s;
     sendDoneErrorOnce := sendDoneErrorOnce s;
     remoteDescSet := remoteDescSet s; ctxErr := ctxErr s;
     exchangeCtxErr := exchangeCtxErr s; hookInstalled := hookInstalled s;
     localDescSet := localDescSet s; gathered := gathered s;
     gatherComplete := gatherComplete s; main := main s; exch := exch s;
     hooks := hooks s |}.

Definition set_uuid (v : string) (s : State) : State :=
  {| DisableTrickleICE := DisableTrickleICE s; trace := trace s; uuid := v;
     sendDoneErrorOnce := sendDoneErrorOnce s;
     remoteDescSet := remoteDescSet s; ctxErr := ctxErr s;
     exchangeCtxErr := exchangeCtxErr s; hookInstalled := hookInstalled s;
     localDescSet := localDescSet s; gathered := gathered s;
     gatherComplete := gatherComplete s; main := main s; exch := exch s;
     hooks := hooks s |}.

Definition set_sendDoneErrorOnce (v : bool) (s : State) : State :=
  {| DisableTrickleICE := DisableTrickleICE s; trace := trace s;
     uuid := uuid s; sendDoneErrorOnce := v;
     remoteDescSet := remoteDescSet s; ctxErr := ctxErr s;
     exchangeCtxErr := exchangeCtxErr s; hookInstalled := hookInstalled s;
     localDescSet := localDescSet s; gathered := gathered s;
     gatherComplete := gatherComplete s; main := main s; exch := exch s;
     hooks := hooks s |}.

Definition set_remoteDescSet (v : bool) (s : State) : State :=
  {| DisableTrickleICE := DisableTrickleICE s; trace := trace s;
     uuid := uuid s; sendDoneErrorOnce := sendDoneErrorOnce s;
     remoteDescSet := v; ctxErr := ctxErr s;
     exchangeCtxErr := exchangeCtxErr s; hookInstalled := hookInstalled s;
     localDescSet := localDescSet s; gathered := gathered s;
     gatherComplete := gatherComplete s; main := main s; exch := exch s;
     hooks := hooks s |}.

Definition set_ctxErr (v : option ctxError) (s : State) : State :=
  {| DisableTrickleICE := DisableTrickleICE s; trace := trace s;
     uuid := uuid s; sendDoneErrorOnce := sendDoneErrorOnce s;
     remoteDescSet := remoteDescSet s; ctxErr := v;
     exchangeCtxErr := exchangeCtxErr s; hookInstalled := hookInstalled s;
     localDescSet := localDescSet s; gathered := gathered s;
     gatherComplete := gatherComplete s; main := main s; exch := exch s;
     hooks := hooks s |}.

Definition set_exchangeCtxErr (v : option ctxError) (s : State) : State :=
  {| DisableTrickleICE := DisableTrickleICE s; trace := trace s;
     uuid := uuid s; sendDoneErrorOnce := sendDoneErrorOnce s;
     remoteDescSet := remoteDescSet s; ctxErr := ctxErr s;
     exchangeCtxErr := v; hookInstalled := hookInstalled s;
     localDescSet := localDescSet s; gathered := gathered s;
     gatherComplete := gatherComplete s; main := main s; exch := exch s;
     hooks := hooks s |}.

Definition set_hookInstalled (v : bool) (s : State) : State :=
  {| DisableTrickleICE := DisableTrickleICE s; trace := trace s;
     uuid := uuid s; sendDoneErrorOnce := sendDoneErrorOnce s;
     remoteDescSet := remoteDescSet s; ctxErr := ctxErr s;
     exchangeCtxErr := exchangeCtxErr s; hookInstalled := v;
     localDescSet := localDescSet s; gathered := gathered s;
     gatherComplete := gatherComplete s; main := main s; exch := exch s;
     hooks := hooks s |}.

Definition set_localDescSet (v : bool) (s : State) : State :=
  {| DisableTrickleICE := DisableTrickleICE s; trace := trace s;
     uuid := uuid s; sendDoneErrorOnce := sendDoneErrorOnce s;
     remoteDescSet := remoteDescSet s; ctxErr := ctxErr s;
     exchangeCtxErr := exchangeCtxErr s; hookInstalled := hookInstalled s;
     localDescSet := v; gathered := gathered s;
     gatherComplete := gatherComplete s; main := main s; exch := exch s;
     hooks := hooks s |}.

Definition set_gathered (v : list ICECandidate) (s : State) : State :=
  {| DisableTrickleICE := DisableTrickleICE s; trace := trace s;
     uuid := uuid s; sendDoneErrorOnce := sendDoneErrorOnce s;
     remoteDescSet := remoteDescSet s; ctxErr := ctxErr s;
     exchangeCtxErr := exchangeCtxErr s; hookInstalled := hookInstalled s;
     localDescSet := localDescSet s; gathered := v;
     gatherComplete := gatherComplete s; main := main s; exch := exch s;
     hooks := hooks s |}.

Definition set_gatherComplete (v : bool) (s : State) : State :=
  {| DisableTrickleICE := DisableTrickleICE s; trace := trace s;
     uuid := uuid s; sendDoneErrorOnce := sendDoneErrorOnce s;
     remoteDescSet := remoteDescSet s; ctxErr := ctxErr s;
     exchangeCtxErr := exchangeCtxErr s; hookInstalled := hookInstalled s;
     localDescSet := localDescSet s; gathered := gathered s;
     gatherComplete := v; main := main s; exch := exch s;
     hooks := hooks s |}.

Definition set_main (v : MainPC) (s : State) : State :=
  {| DisableTrickleICE := DisableTrickleICE s; trace := trace s;
     uuid := uuid s; sendDoneErrorOnce := sendDoneErrorOnce s;
     remoteDescSet := remoteDescSet s; ctxErr := ctxErr s;
     exchangeCtxErr := exchangeCtxErr s; hookInstalled := hookInstalled s;
     localDescSet := localDescSet s; gathered := gathered s;
     gatherComplete := gatherComplete s; main := v; exch := exch s;
     hooks := hooks s |}.

Definition set_exch (v : ExchPC) (s : State) : State :=
  {| DisableTrickleICE := DisableTrickleICE s; trace := trace s;
     uuid := uuid s; sendDoneErrorOnce := sendDoneErrorOnce s;
     remoteDescSet := remoteDescSet s; ctxErr := ctxErr s;
     exchangeCtxErr := exchangeCtxErr s; hookInstalled := hookInstalled s;
     localDescSet := localDescSet s; gathered := gathered s;
     gatherComplete := gatherComplete s; main := main s; exch := v;
     hooks := hooks s |}.

Definition set_hooks (v : list Hook) (s : State) : State :=
  {| DisableTrickleICE := DisableTrickleICE s; trace := trace s;
     uuid := uuid s; sendDoneErrorOnce := sendDoneErrorOnce s;
     remoteDescSet := remoteDescSet s; ctxErr := ctxErr s;
     exchangeCtxErr := exchangeCtxErr s; hookInstalled := hookInstalled s;
     localDescSet := localDescSet s; gathered := gathered s;
     gatherComplete := gatherComplete s; main := main s; exch := exch s;
     hooks := v |}.

Definition emit (e : Event) (s : State) : State := set_trace (e :: trace s) s.

(** The state before line 73.  [exchangeCtx] is a child of [ctx]; its
    error is tracked from the start, as that of a context derived from
    [ctx] and not yet cancelled on its own. *)
Definition initial (disableTrickle : bool) : State :=
  {| DisableTrickleICE := disableTrickle; trace := []; uuid := ""%string;
     sendDoneErrorOnce := false; remoteDescSet := false; ctxErr := None;
     exchangeCtxErr := None; hookInstalled := false; localDescSet := false;
     gathered := []; gatherComplete := false; main := M_dialDirectGRPC;
     exch := E_NotStarted; hooks := [] |}.

(** ** Shared operations *)

(** [sendDoneErrorOnce.Do(f)]: [f] runs if the guard has not run yet. *)
Definition Once_Do (f : State -> State) (s : State) : bool * State :=
  if sendDoneErrorOnce s then (false, s)
  else (true, f (set_sendDoneErrorOnce true s)).

(** [signalingClient.CallUpdate(exchangeCtx, req)]. *)
Definition CallUpdate_call (u : CallUpdate) (s : State) : State :=
  emit (EvCallUpdate (exchangeCtxErr s) {| Uuid := uuid s; Update := u |}) s.

(** wrtc_client.go:121, [sendDone]; [r] is what [CallUpdate] returns if it
    is called. *)
Definition sendDone (r : goerror) (s : State) : goerror * State :=
  let '(ran, s') := Once_Do (CallUpdate_call Update_Done) s in
  (if ran then r else [], s').

(** wrtc_client.go:265, the guarded error update of the failure path. *)
Definition sendError (callErr r : goerror) (s : State) : goerror * State :=
  let '(ran, s') := Once_Do (CallUpdate_call (Update_Error callErr)) s in
  (if ran then r else [], s').

(** [pc.LocalDescription()]: the engine gives the local description with
    the candidates it has gathered so far. *)
Definition LocalDescription (s : State) : SessionDescription :=
  {| sdpCandidates := gathered s |}.

(** [exchangeCancel()], and the end of [ctx] reaching its child. *)
Definition cancel_exchange (e : ctxError) (s : State) : State :=
  match exchangeCtxErr s with
  | None => set_exchangeCtxErr (Some e) s
  | Some _ => s
  end.

Definition all_deferred : list Deferred :=
  [D_exchangeCancel; D_pcClose; D_connClose].

(** ** The orchestrating goroutine *)

(** A fallible call at a sequential point: go on to [ok] when it returned
    nil, else return [r] with the deferred calls [ds] pending. *)
Definition or_return (r : goerror) (ds : list Deferred) (ok : State -> State)
    (s : State) : State :=
  match r with
  | [] => ok s
  | _ :: _ => set_main (M_Returning None r ds) s
  end.

Definition main_step (r : goerror) (s : State) : option State :=
  match main s with
  | M_dialDirectGRPC =>
      Some (or_return r [] (set_main M_OptionalWebRTCConfig) s)
  | M_OptionalWebRTCConfig =>
      Some (or_return r [D_connClose] (set_main M_newWebRTCAPI) s)
  | M_newWebRTCAPI =>
      Some (or_return r [D_connClose] (set_main M_NewPeerConnection) s)
  | M_NewPeerConnection =>
      Some (or_return r [D_connClose] (set_main M_CreateDataChannel) s)
  | M_CreateDataChannel =>
      Some (or_return r [D_pcClose; D_connClose]
              (set_main (if DisableTrickleICE s then M_F_CreateOffer
                         else M_CreateOffer)) s)
  | M_F_CreateOffer =>
      Some (or_return r [D_pcClose; D_connClose]
              (set_main M_F_SetLocalDescription) s)
  | M_F_SetLocalDescription =>
      Some (or_return r [D_pcClose; D_connClose]
              (fun s => set_main M_F_WaitGather (set_localDescSet true s)) s)
  | M_F_WaitGather => None
  | M_CreateOffer =>
      Some (or_return r all_deferred (set_main M_OnICECandidate) s)
  | M_OnICECandidate =>
      Some (set_main M_SetLocalDescription (set_hookInstalled true s))
  | M_SetLocalDescription =>
      Some (or_return r all_deferred
              (fun s => set_main M_encodeSDP (set_localDescSet true s)) s)
  | M_encodeSDP =>
      Some (or_return r all_deferred
              (set_main (M_Call (LocalDescription s))) s)
  | M_Call sdp =>
      let s := emit (EvCall sdp) s in
      match r with
      | [] => Some (set_main M_spawn s)
      | _ :: _ =>
          let '(code, ok) := status_FromError r in
          if ok && N.eqb code codes_Unimplemented
          then Some (set_main (M_Returning None [ErrNoWebRTCSignaler]
                                 all_deferred) s)
          else Some (set_main (M_Returning None r all_deferred) s)
      end
  | M_spawn =>
      Some (set_main M_doCall (set_exch (E_Loop false) s))
  | M_doCall => None
  | M_fail callErr =>
      let '(err, s) := sendError callErr r s in
      Some (set_main (M_Returning None (multierr_Combine callErr err)
                        all_deferred) s)
  | M_sendDone =>
      let '(err, s) := sendDone r s in
      match err with
      | [] => Some (set_main (M_Returning (Some clientCh) []
                                [D_exchangeCancel; D_connClose]) s)
      | _ :: _ => Some (set_main (M_Returning None err all_deferred) s)
      end
  | M_Returning ch err [] => Some (set_main (M_Returned ch err) s)
  | M_Returning ch err (D_exchangeCancel :: ds) =>
      Some (set_main (M_Returning ch err ds) (cancel_exchange Canceled s))
  | M_Returning ch err (D_pcClose :: ds) =>
      Some (set_main (M_Returning ch (multierr_Combine err r) ds)
              (emit (EvPeerClose r) s))
  | M_Returning ch err (D_connClose :: ds) =>
      Some (set_main (M_Returning ch (multierr_Combine err r) ds)
              (emit (EvConnClose r) s))
  | M_Returned _ _ => None
  end.

(** The [<-ctx.Done()] case of the two selects (peer.go:102,
    wrtc_client.go:254); [r] is what [clientCh.Close()] returns. *)
Definition main_ctx_done (r : goerror) (s : State) : option State :=
  match ctxErr s with
  | None => None
  | Some e =>
      match main s with
      | M_F_WaitGather =>
          Some (set_main (M_Returning None [ErrContext e]
                            [D_pcClose; D_connClose]) s)
      | M_doCall =>
          Some (set_main (M_fail (multierr_Combine [ErrContext e] r))
                  (emit (EvChannelClose r) s))
      | _ => None
      end
  end.

(** peer.go:104, [<-gatherComplete]. *)
Definition main_gather_complete (s : State) : option State :=
  match main s with
  | M_F_WaitGather =>
      if gatherComplete s then Some (set_main M_encodeSDP s) else None
  | _ => None
  end.

(** wrtc_client.go:256, [<-clientCh.Ready()]. *)
Definition main_ready (s : State) : option State :=
  match main s with
  | M_doCall => Some (set_main M_sendDone s)
  | _ => None
  end.

(** ** [sendErr] and the receiving case of [doCall] *)

Inductive ErrSource := FromExchange | FromHook (n : nat).

(** The error a goroutine blocked in [sendErr] offers on [errCh]. *)
Definition offered (src : ErrSource) (s : State) : option goerror :=
  match src with
  | FromExchange =>
      match exch s with E_SendErr e => Some e | _ => None end
  | FromHook n =>
      match hooks s !! n with
      | Some {| hook_pc := H_SendErr e |} => Some e
      | _ => None
      end
  end.

Definition finish (src : ErrSource) (s : State) : State :=
  match src with
  | FromExchange => set_exch E_Done s
  | FromHook n =>
      match hooks s !! n with
      | Some h =>
          set_hooks (<[n := {| hook_arg := hook_arg h; hook_pc := H_Done |}]>
                       (hooks s)) s
      | None => s
      end
  end.

(** wrtc_client.go:258, [err := <-errCh], with the matching send at :115. *)
Definition main_recv_err (src : ErrSource) (r : goerror) (s : State)
    : option State :=
  match main s, offered src s with
  | M_doCall, Some e =>
      Some (set_main (M_fail (multierr_Combine e r))
              (emit (EvChannelClose r) (finish src s)))
  | _, _ => None
  end.

(** ** The receive goroutine, [exchangeCandidates] *)

Definition exch_step (r : goerror) (s : State) : option State :=
  match exch s with
  | E_NotStarted => None
  | E_Loop haveInit =>
      match exchangeCtxErr s with
      | None => Some (set_exch (E_Recv haveInit) s)
      | Some e =>
          if errors_Is [ErrContext e] (ErrContext Canceled)
          then Some (set_exch E_Done s)
          else Some (set_exch (E_SendErr [ErrContext e]) s)
      end
  | E_Recv _ => None
  | E_Decode None => Some (set_exch (E_SendErr [ErrPanic]) s)
  | E_Decode (Some init) =>
      match r with
      | [] => Some (set_exch (E_SetRemoteDescription (Sdp init)) s)
      | _ :: _ => Some (set_exch (E_SendErr r) s)
      end
  | E_SetRemoteDescription sdp =>
      let s := emit (EvSetRemoteDescription sdp r) s in
      match r with
      | [] => Some (set_exch E_CloseRemoteDescSet s)
      | _ :: _ => Some (set_exch (E_SendErr r) s)
      end
  | E_CloseRemoteDescSet =>
      Some (set_exch (if DisableTrickleICE s then E_VanillaDone
                      else E_Loop true)
              (set_remoteDescSet true s))
  | E_VanillaDone =>
      let '(err, s) := sendDone r s in
      match err with
      | [] => Some (set_exch E_Done s)
      | _ :: _ => Some (set_exch (E_SendErr err) s)
      end
  | E_AddICECandidate cand =>
      let s := emit (EvAddICECandidate cand r) s in
      match r with
      | [] => Some (set_exch (E_Loop true) s)
      | _ :: _ => Some (set_exch (E_SendErr r) s)
      end
  | E_SendErr _ =>
      match exchangeCtxErr s with
      | Some _ => Some (set_exch E_Done s)
      | None => None
      end
  | E_Done => None
  end.

(** wrtc_client.go:206, the switch on the stage of a received message. *)
Definition on_message (haveInit : bool) (m : CallResponse) (s : State) : State :=
  match respStage m with
  | StageInit init =>
      if haveInit then set_exch (E_SendErr [ErrInitTwice]) s
      else set_exch (E_Decode init) (set_uuid (respUuid m) s)
  | StageUpdate upd =>
      if negb haveInit then set_exch (E_SendErr [ErrUpdateBeforeInit]) s
      else if negb (String.eqb (respUuid m) (uuid s))
      then set_exch (E_SendErr [ErrUuidMismatch (respUuid m) (uuid s)]) s
      else match upd with
           | Some {| updCandidate := Some c |} =>
               set_exch (E_AddICECandidate (iceCandidateFromProto c)) s
           | _ => set_exch (E_SendErr [ErrPanic]) s
           end
  | StageUnknown => set_exch (E_SendErr [ErrUnexpectedStage]) s
  end.

(** wrtc_client.go:199, [callClient.Recv()] returning a message or a
    non-nil error. *)
Definition exch_recv (res : CallResponse + goerror) (s : State) : option State :=
  match exch s with
  | E_Recv haveInit =>
      match res with
      | inr [] => None
      | inr (e :: err) =>
          if negb (errors_Is (e :: err) ErrEOF)
          then Some (set_exch (E_SendErr (e :: err)) s)
          else Some (set_exch E_Done s)
      | inl m => Some (on_message haveInit m (emit (EvRecv m) s))
      end
  | _ => None
  end.

(** ** The candidate-emission hook, wrtc_client.go:141-165 *)

Definition set_hook (n : nat) (h : Hook) (pc : HookPC) (s : State) : State :=
  set_hooks (<[n := {| hook_arg := hook_arg h; hook_pc := pc |}]> (hooks s)) s.

(** [viaSignal] picks the case of the select at :145 that is taken. *)
Definition hook_step (n : nat) (viaSignal : bool) (r : goerror) (s : State)
    : option State :=
  match hooks s !! n with
  | None => None
  | Some h =>
      match hook_pc h with
      | H_Entry =>
          match exchangeCtxErr s with
          | Some _ => Some (set_hook n h H_Done s)
          | None => Some (set_hook n h H_Select s)
          end
      | H_Select =>
          if viaSignal
          then (if remoteDescSet s then Some (set_hook n h H_Send s) else None)
          else match exchangeCtxErr s with
               | Some _ => Some (set_hook n h H_Done s)
               | None => None
               end
      | H_Send =>
          match hook_arg h with
          | None =>
              let '(err, s) := sendDone r s in
              match err with
              | [] => Some (set_hook n h H_Done s)
              | _ :: _ => Some (set_hook n h (H_SendErr err) s)
              end
          | Some i =>
              let s := CallUpdate_call (Update_Candidate (iceCandidateToProto i)) s in
              match r with
              | [] => Some (set_hook n h H_Done s)
              | _ :: _ => Some (set_hook n h (H_SendErr r) s)
              end
          end
      | H_SendErr _ =>
          match exchangeCtxErr s with
          | Some _ => Some (set_hook n h H_Done s)
          | None => None
          end
      | H_Done => None
      end
  end.

(** ** The environment *)

(** The caller's context ends. *)
Definition ctx_done (e : ctxError) (s : State) : option State :=
  match ctxErr s with
  | None => Some (cancel_exchange e (set_ctxErr (Some e) s))
  | Some _ => None
  end.

Definition spawn_hook (arg : option ICECandidate) (s : State) : State :=
  if hookInstalled s
  then set_hooks (hooks s ++ [{| hook_arg := arg; hook_pc := H_Entry |}]) s
  else s.

(** The engine gathers between [SetLocalDescription] and the end of
    gathering, and calls the installed hook for each candidate and, with
    nil, for the end. *)
Definition gather (c : ICECandidate) (s : State) : option State :=
  if localDescSet s && negb (gatherComplete s)
  then Some (spawn_hook (Some c) (set_gathered (gathered s ++ [c]) s))
  else None.

Definition gather_complete (s : State) : option State :=
  if localDescSet s && negb (gatherComplete s)
  then Some (spawn_hook None (set_gatherComplete true s))
  else None.

(** ** Runs *)

Inductive Action :=
| ACtxDone (e : ctxError)
| AGather (c : ICECandidate)
| AGatherComplete
| AMain (r : goerror)
| AMainCtxDone (r : goerror)
| AMainGatherComplete
| AMainReady
| AMainRecvErr (src : ErrSource) (r : goerror)
| AExchange (r : goerror)
| ARecv (res : CallResponse + goerror)
| AHook (n : nat) (viaSignal : bool) (r : goerror).

Definition exec (a : Action) (s : State) : option State :=
  match a with
  | ACtxDone e => ctx_done e s
  | AGather c => gather c s
  | AGatherComplete => gather_complete s
  | AMain r => main_step r s
  | AMainCtxDone r => main_ctx_done r s
  | AMainGatherComplete => main_gather_complete s
  | AMainReady => main_ready s
  | AMainRecvErr src r => main_recv_err src r s
  | AExchange r => exch_step r s
  | ARecv res => exch_recv res s
  | AHook n b r => hook_step n b r s
  end.

Fixpoint run (acts : list Action) (s : State) : option State :=
  match acts with
  | [] => Some s
  | a :: acts =>
      match exec a s with
      | Some s' => run acts s'
      | None => None
      end
  end.

Definition reachable (s : State) : Prop :=
  exists disableTrickle acts, run acts (initial disableTrickle) = Some s.

(** ** Observations on traces *)

(** A Termination Record: a done update or an error update. *)
Definition is_termination (e : Event) : bool :=
  match e with
  | EvCallUpdate _ {| Update := Update_Done |} => true
  | EvCallUpdate _ {| Update := Update_Error _ |} => true
  | _ => false
  end.

Fixpoint terminations (t : list Event) : nat :=
  match t with
  | [] => 0
  | e :: t => (if is_termination e then 1 else 0) + terminations t
  end.

Definition is_candidate_update (e : Event) : bool :=
  match e with
  | EvCallUpdate _ {| Update := Update_Candidate _ |} => true
  | _ => false
  end.

(** [SetRemoteDescription] was called and returned nil. *)
Definition is_remote_applied (e : Event) : bool :=
  match e with
  | EvSetRemoteDescription _ [] => true
  | _ => false
  end.

Definition remote_applied (t : list Event) : bool := existsb is_remote_applied t.

Definition init_uuid (e : Event) : option string :=
  match e with
  | EvRecv {| respUuid := u; respStage := StageInit _ |} => Some u
  | _ => None
  end.

(** The session identifier of the first init message received, if any. *)
Fixpoint assigned (t : list Event) : option string :=
  match t with
  | [] => None
  | e :: t =>
      match assigned t with
      | Some u => Some u
      | None => init_uuid e
      end
  end.

(** The candidates [AddICECandidate] was called with. *)
Fixpoint added (t : list Event) : list ICECandidateInit :=
  match t with
  | [] => []
  | EvAddICECandidate c _ :: t => c :: added t
  | _ :: t => added t
  end.

(** The update calls made on the signaling client. *)
Fixpoint updates (t : list Event) : list (option ctxError * CallUpdateRequest) :=
  match t with
  | [] => []
  | EvCallUpdate c req :: t => (c, req) :: updates t
  | _ :: t => updates t
  end.

(** The update requests that reached the signaling service: those of the
    calls made on an exchange context that had not ended.  A call made on
    an ended context returns the context's error from the gRPC client with
    nothing written to the connection. *)
Fixpoint sent (t : list Event) : list CallUpdateRequest :=
  match t with
  | [] => []
  | EvCallUpdate None req :: t => req :: sent t
  | _ :: t => sent t
  end.

Definition is_init_message (e : Event) : bool :=
  match e with
  | EvRecv {| respStage := StageInit _ |} => true
  | _ => false
  end.

(** Some init message has been received. *)
Definition init_received (t : list Event) : bool := existsb is_init_message t.

(** What the deferred closes of the peer connection and of the control
    connection returned, in the order of the calls. *)
Fixpoint closes (t : list Event) : goerror :=
  match t with
  | [] => []
  | EvPeerClose r :: t => closes t ++ r
  | EvConnClose r :: t => closes t ++ r
  | _ :: t => closes t
  end.

(** ** Two claims as the specification words them *)

(** Readiness: once the ready case of [doCall] is taken, whatever happens
    next, [dialWebRTC] returns with a Termination Record sent and with the
    established channel. *)
Definition readiness_claim : Prop :=
  forall s s1 acts s2 ch err,
    reachable s -> main s = M_doCall -> exec AMainReady s = Some s1 ->
    run acts s1 = Some s2 -> main s2 = M_Returned ch err ->
    terminations (trace s2) = 1 /\ ch = Some clientCh.


(** The descriptions sent as initial requests. *)
Fixpoint calls (t : list Event) : list SessionDescription :=
  match t with
  | [] => []
  | EvCall d :: t => d :: calls t
  | _ :: t => calls t
  end.

End Dial.

(* ===================================================================== *)
(** * Concrete runs *)
(* ===================================================================== *)

Module Scenarios.
Import Translator Dial.

Definition host_candidate : ICECandidate :=
  {| ToJSON := {| Candidate := "candidate:1 1 udp 2130706431 192.0.2.1 50000 typ host";
                  SDPMid := Some "0"%string; SDPMLineIndex := Some 0%Z;
                  UsernameFragment := None |} |}.

Definition init_message : CallResponse :=
  {| respUuid := "session-1"; respStage := StageInit (Some {| Sdp := "answer" |}) |}.

Definition update_message (id : string) : CallResponse :=
  {| respUuid := id;
     respStage := StageUpdate
       (Some {| updCandidate := Some (iceCandidateToProto host_candidate) |}) |}.

(** Every call up to and including the start of the receive goroutine
    succeeds; the orchestrator then waits in [doCall]. *)
Definition trickle_until_doCall : list Action := replicate 11 (AMain []).

Definition vanilla_until_doCall : list Action :=
  replicate 7 (AMain []) ++
  [AGather host_candidate; AGatherComplete; AMainGatherComplete] ++
  replicate 3 (AMain []).

(** The receive goroutine takes the init message and applies the answer. *)
Definition receive_init : list Action :=
  [AExchange []; ARecv (inl init_message); AExchange []; AExchange [];
   AExchange []].

(** Trickle mode: gathering ends after the answer is applied, the hook
    sends done, the channel becomes ready and [dialWebRTC] returns. *)
Definition trickle_success : list Action :=
  trickle_until_doCall ++ receive_init ++
  [AGatherComplete; AHook 0 true []; AHook 0 true []; AHook 0 true [];
   AMainReady; AMain []; AMain []; AMain []; AMain []].

(** The stream delivers an update first; the receive goroutine reports
    the violation and the orchestrator takes it from [errCh]. *)
Definition update_before_init : list Action :=
  trickle_until_doCall ++
  [AExchange []; ARecv (inl (update_message "session-1"));
   AMainRecvErr FromExchange []].

(** The receive goroutine has taken the init message, applied the answer
    and waits for the next message. *)
Definition trickle_after_init : list Action :=
  trickle_until_doCall ++ receive_init ++ [AExchange []].

(** A candidate is gathered before the init message arrives: its hook
    invocation waits, and relays it once the answer is applied. *)
Definition candidate_relayed : list Action :=
  trickle_until_doCall ++ [AGather host_candidate; AHook 0 true []] ++
  receive_init ++ [AHook 0 true []; AHook 0 true []].

(** The caller cancels while the orchestrator waits in [doCall]. *)
Definition canceled_during_wait : list Action :=
  trickle_until_doCall ++ [ACtxDone Canceled].


End Scenarios.

(* ===================================================================== *)
(** * Invariants and state predicates *)
(* ===================================================================== *)

Module Invariants.
Import Translator Dial.

(** The caller's context is the parent of the exchange context. *)
Definition ctx_parent (s : State) : Prop :=
  is_Some (ctxErr s) -> is_Some (exchangeCtxErr s).

(** The guard has run exactly when a Termination Record is in the trace,
    and then there is one. *)
Definition once_inv (s : State) : Prop :=
  terminations (trace s) = if sendDoneErrorOnce s then 1 else 0.

(** Reading a trace from its newest event: every candidate update has a
    successful [SetRemoteDescription] among the events before it. *)
Fixpoint candidates_after_remote (t : list Event) : Prop :=
  match t with
  | [] => True
  | e :: t =>
      (is_candidate_update e = true -> remote_applied t = true) /\
      candidates_after_remote t
  end.

Definition signal_inv (s : State) : Prop :=
  (remoteDescSet s = true -> remote_applied (trace s) = true) /\
  (exch s = E_CloseRemoteDescSet -> remote_applied (trace s) = true) /\
  Forall (fun h => hook_pc h = H_Send -> remoteDescSet s = true) (hooks s) /\
  candidates_after_remote (trace s).

(** An invocation of the hook that has not passed the select at :145. *)
Definition waiting (h : Hook) : Prop :=
  hook_pc h = H_Entry \/ hook_pc h = H_Select.

(** What one transition of the system can do to a waiting invocation. *)
Definition kept_or_released (s : State) (h h' : Hook) : Prop :=
  hook_arg h' = hook_arg h /\
  (waiting h' \/
   (hook_pc h' = H_Send /\ remoteDescSet s = true) \/
   (hook_pc h' = H_Done /\ is_Some (exchangeCtxErr s))).

(** What the receive goroutine's [haveInit] and position say about the
    init messages received. *)
Definition exch_knows_init (pc : ExchPC) (a : option string) : Prop :=
  match pc with
  | E_NotStarted => a = None
  | E_Loop haveInit | E_Recv haveInit =>
      if haveInit then is_Some a else a = None
  | E_Decode _ | E_SetRemoteDescription _ | E_CloseRemoteDescSet
  | E_VanillaDone | E_AddICECandidate _ => is_Some a
  | E_SendErr _ | E_Done => True
  end.

(** The orchestrator has not yet started the receive goroutine. *)
Definition before_spawn (pc : MainPC) : bool :=
  match pc with
  | M_doCall | M_fail _ | M_sendDone | M_Returning _ _ _ | M_Returned _ _ =>
      false
  | _ => true
  end.

Definition init_inv (s : State) : Prop :=
  uuid s = default ""%string (assigned (trace s)) /\
  exch_knows_init (exch s) (assigned (trace s)) /\
  (remoteDescSet s = true -> is_Some (assigned (trace s))) /\
  (before_spawn (main s) = true -> exch s = E_NotStarted).

(** [dialWebRTC] is running its deferred calls, or has returned. *)
Definition returning (pc : MainPC) : Prop :=
  match pc with
  | M_Returning _ _ _ | M_Returned _ _ => True
  | _ => False
  end.


(** [exchangeCandidates] has returned. *)
Definition aborted (pc : ExchPC) : Prop :=
  match pc with
  | E_SendErr _ | E_Done => True
  | _ => False
  end.

(** The program points of the trickle block, wrtc_client.go:135-171. *)
Definition in_trickle_block (pc : MainPC) : bool :=
  match pc with
  | M_CreateOffer | M_OnICECandidate | M_SetLocalDescription => true
  | _ => false
  end.

(** The description to encode, or encoded, is that of a finished
    gathering. *)
Definition holds_complete_sdp (s : State) : Prop :=
  match main s with
  | M_encodeSDP => gatherComplete s = true
  | M_Call d => gatherComplete s = true /\ d = LocalDescription s
  | _ => True
  end.

Definition vanilla_inv (s : State) : Prop :=
  DisableTrickleICE s = true ->
  hookInstalled s = false /\ hooks s = [] /\
  existsb is_candidate_update (trace s) = false /\
  in_trickle_block (main s) = false /\
  holds_complete_sdp s /\
  (forall d, d ∈ calls (trace s) ->
     gatherComplete s = true /\ d = LocalDescription s).

(** No deferred close has run before [dialWebRTC] starts to return. *)
Definition closes_inv (s : State) : Prop :=
  returning (main s) \/ closes (trace s) = [].

(** [dialWebRTC] is returning, or has returned, the channel [ch] and the
    error [pre] combined with what the deferred closes returned. *)
Definition result_is (ch : option webrtcClientChannel) (pre : goerror)
    (s : State) : Prop :=
  match main s with
  | M_Returning ch' err _ | M_Returned ch' err =>
      ch' = ch /\ err = pre ++ closes (trace s)
  | _ => False
  end.

(** An update call made with the exchange context already ended. *)
Definition on_ended_context (e : Event) : Prop :=
  match e with
  | EvCallUpdate c _ => is_Some c
  | _ => True
  end.

(** Since [s1] the exchange context has ended, and every update call made
    since was made on the ended context. *)
Definition after_cancellation (s1 s : State) : Prop :=
  is_Some (exchangeCtxErr s) /\
  exists new, trace s = new ++ trace s1 /\ Forall on_ended_context new.


End Invariants.

(* ===================================================================== *)
(** * Connection statistics, peer.go:181-216 *)
(* ===================================================================== *)

Module Stats.

(** [webrtc.ICECandidateType]: the zero value and the four kinds. *)
Inductive ICECandidateType :=
| ICECandidateTypeUnknown
| ICECandidateTypeHost
| ICECandidateTypeSrflx
| ICECandidateTypePrflx
| ICECandidateTypeRelay.

(** [webrtc.StatsType] is a string. *)
Definition StatsTypeRemoteCandidate : string := "remote-candidate".
Definition StatsTypeLocalCandidate : string := "local-candidate".

(** A value of the [webrtc.Stats] interface, by its dynamic type, with the
    fields [getPeerConnectionStats] reads. *)
Inductive Stat :=
| PeerConnectionStats (ID : string)
| ICECandidateStats (StatType : string) (CandidateType : ICECandidateType)
    (IP : string)
| OtherStats.

Record peerConnectionStats := {
  ID : string;
  RemoteCandidates : gmap string string
}.

(** peer.go:201-209, the switch on the candidate type; the empty string is
    the value of a [candidateType] left unset. *)
Definition candidateTypeName (t : ICECandidateType) : string :=
  match t with
  | ICECandidateTypeRelay => "relay"
  | ICECandidateTypePrflx => "peer-reflexive"
  | ICECandidateTypeSrflx => "server-reflexive"
  | _ => ""
  end.

(** peer.go:190-214, the body of the loop. *)
Definition visit (acc : string * gmap string string) (stat : Stat)
    : string * gmap string string :=
  let '(connID, connInfo) := acc in
  let connID :=
    match stat with
    | PeerConnectionStats id => id
    | _ => connID
    end in
  match stat with
  | ICECandidateStats ty ct ip =>
      if negb (String.eqb ty StatsTypeRemoteCandidate) then (connID, connInfo)
      else
        let candidateType := candidateTypeName ct in
        if String.eqb candidateType "" then (connID, connInfo)
        else (connID, <[candidateType := ip]> connInfo)
  | _ => (connID, connInfo)
  end.

(** peer.go:186, [getPeerConnectionStats].  [GetStats] returns a Go map,
    which [range] visits in an unspecified order: [stats] lists the values
    of the report in the order of the visit. *)
Definition getPeerConnectionStats (stats : list Stat) : peerConnectionStats :=
  let '(connID, connInfo) := fold_left visit stats (""%string, ∅) in
  {| ID := connID; RemoteCandidates := connInfo |}.

(** The entry a visited value adds to [connInfo], if any. *)
Definition report_of (stat : Stat) : option (string * string) :=
  match stat with
  | ICECandidateStats ty ct ip =>
      if String.eqb ty StatsTypeRemoteCandidate
         && negb (String.eqb (candidateTypeName ct) "")
      then Some (candidateTypeName ct, ip)
      else None
  | _ => None
  end.

(** A remote candidate of a kind the function reports. *)
Definition reported (k ip : string) (stat : Stat) : Prop :=
  exists ct, stat = ICECandidateStats StatsTypeRemoteCandidate ct ip /\
    candidateTypeName ct = k /\ k <> ""%string.

(** No two reported candidates of one kind with different addresses, and no
    two connection entries with different identifiers. *)
Definition unambiguous (stats : list Stat) : Prop :=
  (forall k ip1 ip2 st1 st2, st1 ∈ stats -> st2 ∈ stats ->
     reported k ip1 st1 -> reported k ip2 st2 -> ip1 = ip2) /\
  (forall id1 id2, PeerConnectionStats id1 ∈ stats ->
     PeerConnectionStats id2 ∈ stats -> id1 = id2).

(** A report with a host candidate, a local relay candidate, two remote
    candidates that are listed, and the connection's own entry. *)
Definition sample_report : list Stat :=
  [ICECandidateStats StatsTypeRemoteCandidate ICECandidateTypeHost "10.0.0.2";
   PeerConnectionStats "PeerConnection-1";
   ICECandidateStats StatsTypeLocalCandidate ICECandidateTypeRelay "192.0.2.9";
   ICECandidateStats StatsTypeRemoteCandidate ICECandidateTypeRelay "198.51.100.7";
   OtherStats;
   ICECandidateStats StatsTypeRemoteCandidate ICECandidateTypeSrflx "203.0.113.5"].

End Stats.

(* ===================================================================== *)
(** * The connection factory for the server role, peer.go:114-179 *)
(* ===================================================================== *)

Module Server.
Import Dial.

Inductive PeerConnection := thePC.
Inductive DataChannel := theDC.

(** The calls the factory makes on its collaborators. *)
Inductive FactoryCall :=
| C_newWebRTCAPI
| C_NewPeerConnection
| C_CreateDataChannel
| C_OnError
| C_DecodeSDP (sdp : string)
| C_SetRemoteDescription (sdp : string)
| C_CreateAnswer
| C_SetLocalDescription
| C_GatheringCompletePromise
| C_Close.

#[global] Instance FactoryCall_eq_dec : EqDecision FactoryCall.
Proof. solve_decision. Defined.

(** What the collaborators return during one call of the factory.
    [wait] is the case taken by the select at :170: [Some e] for
    [<-ctx.Done()] with [ctx.Err() = e], [None] for [<-gatherComplete].
    [CreateDataChannel] returns no channel when it returns an error. *)
Record Env := {
  newWebRTCAPI_err : goerror;
  NewPeerConnection_err : goerror;
  CreateDataChannel_err : goerror;
  DecodeSDP_err : goerror;
  SetRemoteDescription_err : goerror;
  CreateAnswer_err : goerror;
  SetLocalDescription_err : goerror;
  wait : option ctxError;
  Close_err : goerror
}.

(** The function body after the deferred close is registered (:131-178):
    the values of the return statement, [successful], and the calls. *)
Record Body := {
  b_dc : option DataChannel;
  b_err : goerror;
  b_successful : bool;
  b_calls : list FactoryCall
}.

Definition stop (dc : option DataChannel) (err : goerror)
    (cs : list FactoryCall) : Body :=
  {| b_dc := dc; b_err := err; b_successful := false; b_calls := cs |}.

Definition body (env : Env) (sdp : string) (disableTrickle : bool) : Body :=
  let cs := [C_CreateDataChannel] in
  match CreateDataChannel_err env with
  | (_ :: _) as err => stop None err cs
  | [] =>
  let dataChannel := Some theDC in
  let cs := cs ++ [C_OnError; C_DecodeSDP sdp] in
  match DecodeSDP_err env with
  | (_ :: _) as err => stop dataChannel err cs
  | [] =>
  let cs := cs ++ [C_SetRemoteDescription sdp] in
  match SetRemoteDescription_err env with
  | (_ :: _) as err => stop dataChannel err cs
  | [] =>
  if disableTrickle then
    let cs := cs ++ [C_CreateAnswer] in
    match CreateAnswer_err env with
    | (_ :: _) as err => stop dataChannel err cs
    | [] =>
    let cs := cs ++ [C_SetLocalDescription] in
    match SetLocalDescription_err env with
    | (_ :: _) as err => stop dataChannel err cs
    | [] =>
    let cs := cs ++ [C_GatheringCompletePromise] in
    match wait env with
    | Some e => stop None [ErrContext e] cs
    | None =>
        {| b_dc := dataChannel; b_err := []; b_successful := true;
           b_calls := cs |}
    end
    end
    end
  else
    {| b_dc := dataChannel; b_err := []; b_successful := true;
       b_calls := cs |}
  end
  end
  end.

Record Result := {
  pc : option PeerConnection;
  dc : option DataChannel;
  err : goerror;
  calls : list FactoryCall
}.

(** peer.go:114, [newPeerConnectionForServer]. *)
Definition newPeerConnectionForServer (env : Env) (sdp : string)
    (disableTrickle : bool) : Result :=
  match newWebRTCAPI_err env with
  | (_ :: _) as e =>
      {| pc := None; dc := None; err := e; calls := [C_newWebRTCAPI] |}
  | [] =>
  match NewPeerConnection_err env with
  | (_ :: _) as e =>
      {| pc := None; dc := None; err := e;
         calls := [C_newWebRTCAPI; C_NewPeerConnection] |}
  | [] =>
      let b := body env sdp disableTrickle in
      let cs := [C_newWebRTCAPI; C_NewPeerConnection] ++ b_calls b in
      if b_successful b
      then {| pc := Some thePC; dc := b_dc b; err := b_err b; calls := cs |}
      else {| pc := Some thePC; dc := b_dc b;
              err := multierr_Combine (b_err b) (Close_err env);
              calls := cs ++ [C_Close] |}
  end
  end.

(** Every call the factory can make returns nil and gathering completes. *)
Definition all_well (env : Env) (disableTrickle : bool) : Prop :=
  newWebRTCAPI_err env = [] /\ NewPeerConnection_err env = [] /\
  CreateDataChannel_err env = [] /\ DecodeSDP_err env = [] /\
  SetRemoteDescription_err env = [] /\
  (disableTrickle = true ->
   CreateAnswer_err env = [] /\ SetLocalDescription_err env = [] /\
   wait env = None).

Definition quiet : Env :=
  {| newWebRTCAPI_err := []; NewPeerConnection_err := [];
     CreateDataChannel_err := []; DecodeSDP_err := [];
     SetRemoteDescription_err := []; CreateAnswer_err := [];
     SetLocalDescription_err := []; wait := None; Close_err := [] |}.

(** The answer cannot be set and closing the connection fails as well. *)
Definition failing_answer : Env :=
  {| newWebRTCAPI_err := []; NewPeerConnection_err := [];
     CreateDataChannel_err := []; DecodeSDP_err := [];
     SetRemoteDescription_err := []; CreateAnswer_err := [];
     SetLocalDescription_err := [ErrOther "invalid state"]; wait := None;
     Close_err := [ErrOther "close failed"] |}.

End Server.

(* ===================================================================== *)
(** * Further observations and invariants of the dial attempt *)
(* ===================================================================== *)

Module Teardown.
Import Translator Dial Scenarios Invariants.

(** The stream starts with an update; the orchestrator reports the
    failure, runs its deferred calls and returns. *)
Definition failed_dial : list Action :=
  update_before_init ++ replicate 5 (AMain []).

(** A vanilla dial whose caller gives up while the factory waits for the
    end of gathering. *)
Definition canceled_while_gathering : list Action :=
  replicate 7 (AMain []) ++ [AGather host_candidate; ACtxDone Canceled].

(** A candidate is gathered and its hook invocation waits at the select;
    the stream then starts with an update and the dial fails. *)
Definition hook_waiting_at_return : list Action :=
  trickle_until_doCall ++
  [AGather host_candidate; AHook 0 true []; AExchange [];
   ARecv (inl (update_message "session-1")); AMainRecvErr FromExchange []] ++
  replicate 5 (AMain []).

(** The calls of [SetRemoteDescription], whatever they returned. *)
Fixpoint remote_calls (t : list Event) : nat :=
  match t with
  | [] => 0
  | EvSetRemoteDescription _ _ :: t => S (remote_calls t)
  | _ :: t => remote_calls t
  end.

(** The calls of [pc.Close()], [conn.Close()] and [clientCh.Close()] that
    [dialWebRTC] makes itself, the first two in the deferred functions of
    wrtc_client.go:77-79 and :101-106 and of the client factory,
    peer.go:66-70. *)
Fixpoint peer_closes (t : list Event) : nat :=
  match t with
  | [] => 0
  | EvPeerClose _ :: t => S (peer_closes t)
  | _ :: t => peer_closes t
  end.

Fixpoint conn_closes (t : list Event) : nat :=
  match t with
  | [] => 0
  | EvConnClose _ :: t => S (conn_closes t)
  | _ :: t => conn_closes t
  end.

Fixpoint channel_closes (t : list Event) : nat :=
  match t with
  | [] => 0
  | EvChannelClose _ :: t => S (channel_closes t)
  | _ :: t => channel_closes t
  end.

Definition is_error_update (e : Event) : bool :=
  match e with
  | EvCallUpdate _ {| Update := Update_Error _ |} => true
  | _ => false
  end.

Fixpoint pending_pcClose (ds : list Deferred) : nat :=
  match ds with
  | [] => 0
  | D_pcClose :: ds => S (pending_pcClose ds)
  | _ :: ds => pending_pcClose ds
  end.

Fixpoint pending_connClose (ds : list Deferred) : nat :=
  match ds with
  | [] => 0
  | D_connClose :: ds => S (pending_connClose ds)
  | _ :: ds => pending_connClose ds
  end.

Fixpoint pending_cancel (ds : list Deferred) : bool :=
  match ds with
  | [] => false
  | D_exchangeCancel :: _ => true
  | _ :: ds => pending_cancel ds
  end.

(** [SetRemoteDescription] has not been called before the receive
    goroutine reaches it, and is not called again after. *)
Definition remote_once_inv (s : State) : Prop :=
  match exch s with
  | E_NotStarted | E_Loop false | E_Recv false | E_Decode _
  | E_SetRemoteDescription _ => remote_calls (trace s) = 0
  | _ => remote_calls (trace s) <= 1
  end.

(** An update message with the session identifier [u] and the candidate
    [p]. *)
Definition update_of (u : string) (p : pbICECandidate) : CallResponse :=
  {| respUuid := u;
     respStage := StageUpdate (Some {| updCandidate := Some p |}) |}.

(** The candidate [c] comes from an update message received in [t] under
    the session identifier assigned in [t], after the answer was applied. *)
Definition from_update (c : ICECandidateInit) (t : list Event) : Prop :=
  remote_applied t = true /\
  exists u p, EvRecv (update_of u p) ∈ t /\ c = iceCandidateFromProto p /\
    assigned t = Some u.

(** Reading a trace from its newest event: every call of
    [AddICECandidate] is justified by the events before it. *)
Fixpoint added_justified (t : list Event) : Prop :=
  match t with
  | [] => True
  | e :: t =>
      (forall c r, e = EvAddICECandidate c r -> from_update c t) /\
      added_justified t
  end.

Definition applied_inv (s : State) : Prop :=
  added_justified (trace s) /\
  match exch s with
  | E_Loop true | E_Recv true => remote_applied (trace s) = true
  | E_AddICECandidate c => from_update c (trace s)
  | _ => True
  end.

(** The program points up to the initial [Call]. *)
Definition before_call (pc : MainPC) : bool :=
  match pc with
  | M_spawn | M_doCall | M_fail _ | M_sendDone | M_Returning _ _ _
  | M_Returned _ _ => false
  | _ => true
  end.

(** The orchestrator is past the initial [Call] and has not begun to
    return. *)
Definition exchanging (pc : MainPC) : bool :=
  match pc with
  | M_spawn | M_doCall | M_fail _ | M_sendDone => true
  | _ => false
  end.

(** Reading a trace from its newest event: every update call has the
    initial request among the events before it. *)
Fixpoint updates_after_call (t : list Event) : Prop :=
  match t with
  | [] => True
  | e :: t =>
      (forall c req, e = EvCallUpdate c req -> calls t <> []) /\
      updates_after_call t
  end.

Definition call_inv (s : State) : Prop :=
  length (calls (trace s)) <= 1 /\
  (before_call (main s) = true -> calls (trace s) = []) /\
  (calls (trace s) = [] ->
   exch s = E_NotStarted /\ remoteDescSet s = false /\
   exchanging (main s) = false) /\
  updates_after_call (trace s).

(** Reading a trace from its newest event: every update call carries the
    session identifier assigned before it, or the empty string if none was;
    a candidate update is sent with an identifier assigned and carries the
    translation of a candidate of [g]. *)
Fixpoint relayed_justified (g : list ICECandidate) (t : list Event) : Prop :=
  match t with
  | [] => True
  | e :: t =>
      (forall c req, e = EvCallUpdate c req ->
         Uuid req = default ""%string (assigned t) /\
         forall p, Update req = Update_Candidate p ->
           is_Some (assigned t) /\
           exists i, i ∈ g /\ p = iceCandidateToProto i) /\
      relayed_justified g t
  end.

Definition relay_inv (s : State) : Prop :=
  relayed_justified (gathered s) (trace s) /\
  Forall (fun h => forall i, hook_arg h = Some i -> i ∈ gathered s) (hooks s).

(** What has been closed, and what is still to be closed, when
    [dialWebRTC] returns the channel [ch]. *)
Definition closing (ch : option webrtcClientChannel) (ds : list Deferred)
    (s : State) : Prop :=
  peer_closes (trace s) + pending_pcClose ds <= 1 /\
  conn_closes (trace s) + pending_connClose ds <= 1 /\
  channel_closes (trace s) <= 1 /\
  (ch <> None ->
   peer_closes (trace s) + pending_pcClose ds = 0 /\
   conn_closes (trace s) + pending_connClose ds = 1 /\
   channel_closes (trace s) = 0 /\
   existsb is_error_update (trace s) = false /\
   sendDoneErrorOnce s = true) /\
  (ch = None -> calls (trace s) <> [] ->
   peer_closes (trace s) + pending_pcClose ds = 1 /\
   conn_closes (trace s) + pending_connClose ds = 1).

Definition resource_inv (s : State) : Prop :=
  match main s with
  | M_Returning ch _ ds => closing ch ds s
  | M_Returned ch _ => closing ch [] s
  | pc =>
      peer_closes (trace s) = 0 /\ conn_closes (trace s) = 0 /\
      channel_closes (trace s) = match pc with M_fail _ => 1 | _ => 0 end /\
      existsb is_error_update (trace s) = false
  end.

(** The program points before the hook is installed. *)
Definition before_hook (pc : MainPC) : bool :=
  match pc with
  | M_dialDirectGRPC | M_OptionalWebRTCConfig | M_newWebRTCAPI
  | M_NewPeerConnection | M_CreateDataChannel | M_F_CreateOffer
  | M_F_SetLocalDescription | M_F_WaitGather | M_CreateOffer
  | M_OnICECandidate => true
  | _ => false
  end.

(** Nothing runs beside the orchestrator, and nothing will. *)
Definition alone (s : State) : Prop :=
  hookInstalled s = false /\ exch s = E_NotStarted.

Definition teardown_inv (s : State) : Prop :=
  (hookInstalled s = false -> hooks s = []) /\
  match main s with
  | M_Returning _ _ ds =>
      pending_cancel ds = true \/ is_Some (exchangeCtxErr s) \/ alone s
  | M_Returned _ _ => is_Some (exchangeCtxErr s) \/ alone s
  | pc => before_hook pc = true -> hookInstalled s = false
  end.

(** The messages taken from the stream. *)
Fixpoint received (t : list Event) : nat :=
  match t with
  | [] => 0
  | EvRecv _ :: t => S (received t)
  | _ :: t => received t
  end.

(** The messages the receive goroutine can still take once the exchange
    context has ended: the one it is blocked for in [Recv], if it is. *)
Definition recv_budget (pc : ExchPC) : nat :=
  match pc with
  | E_Recv _ => 1
  | _ => 0
  end.

(** With the exchange context ended, the receive goroutine takes no
    message beyond the bound [k]. *)
Definition winding_down (k : nat) (s : State) : Prop :=
  is_Some (exchangeCtxErr s) /\
  received (trace s) + recv_budget (exch s) <= k.

End Teardown.

(* ===================================================================== *)
(** * Properties *)
(* ===================================================================== *)

Import Translator Dial Scenarios Invariants.

(** ** The candidate translator *)

Lemma uint32_of_uint16 v : is_uint16 v -> uint32 v = v.
Proof. unfold is_uint16, uint32. intros ?. apply Z.mod_small. lia. Qed.

Lemma uint16_of_uint16 v : is_uint16 v -> uint16 v = v.
Proof. unfold is_uint16, uint16. intros ?. apply Z.mod_small. lia. Qed.

Lemma toProto_same_fields ij :
  init_typed ij -> same_fields ij (iceCandidateInitToProto ij).
Proof.
  intros Hty. destruct ij as [c m l u]; unfold same_fields; simpl.
  repeat split.
  - by destruct m.
  - destruct l as [v|]; [|done]. by rewrite uint32_of_uint16; [|apply Hty].
  - by destruct u.
Qed.

Lemma fromProto_toProto ij :
  init_typed ij -> iceCandidateFromProto (iceCandidateInitToProto ij) = ij.
Proof.
  intros Hty. destruct ij as [c m l u]; unfold iceCandidateFromProto; simpl.
  f_equal.
  - by destruct m.
  - destruct l as [v|]; [|done].
    assert (is_uint16 v) by by apply Hty.
    by rewrite uint32_of_uint16, uint16_of_uint16.
  - by destruct u.
Qed.

Lemma fromProto_fields p :
  let c := iceCandidateFromProto p in
  Candidate c = pbCandidate p /\ SDPMid c = SdpMid p /\
  UsernameFragment c = pbUsernameFragment p /\
  SDPMLineIndex c = uint16 <$> SdpmLineIndex p.
Proof.
  by destruct p as [c [m|] [l|] [u|]].
Qed.

(** C8 as worded fails on the code: the wire line index 65536 comes back
    as 0 from [iceCandidateFromProto]. *)
Lemma translator_not_exact_from_wire : ~ preserves_all_fields_both_ways.
Proof.
  intros (_ & Hfrom & _).
  destruct (Hfrom wide_index_candidate) as (_ & _ & Hidx & _).
  - intros v [= <-]. unfold is_uint32. lia.
  - vm_compute in Hidx. discriminate.
Qed.

(** C8, amended. For a local candidate [ij] and a wire candidate [p]:
    [iceCandidateInitToProto] keeps the four fields of [ij], absent ones
    absent; [iceCandidateFromProto] keeps the candidate string, the mid and
    the username fragment of [p], absent ones absent, and gives the line
    index modulo 2^16, absent if absent, hence all four fields when the
    wire line index is below 2^16; and translating [ij] to wire form and
    back gives [ij]. *)
Theorem candidate_translation ij p :
  init_typed ij -> proto_typed p ->
  same_fields ij (iceCandidateInitToProto ij) /\
  (let c := iceCandidateFromProto p in
   Candidate c = pbCandidate p /\ SDPMid c = SdpMid p /\
   UsernameFragment c = pbUsernameFragment p /\
   SDPMLineIndex c = uint16 <$> SdpmLineIndex p /\
   ((forall v, SdpmLineIndex p = Some v -> is_uint16 v) -> same_fields c p)) /\
  iceCandidateFromProto (iceCandidateInitToProto ij) = ij.
Proof.
  intros Hij _. split; [by apply toProto_same_fields|].
  split; [|by apply fromProto_toProto].
  destruct (fromProto_fields p) as (Hc & Hm & Hu & Hl).
  cbv zeta. do 4 (split; [done|]).
  intros Hsmall. unfold same_fields. do 2 (split; [done|]). split; [|done].
  rewrite Hl. destruct (SdpmLineIndex p) as [v|] eqn:Hv; [|done].
  simpl. f_equal. apply uint16_of_uint16. by apply Hsmall.
Qed.

(** On a host candidate the round trip is the identity; on the wire
    candidate with line index 65536 the local line index is 0. *)
Lemma candidate_translation_witness :
  iceCandidateFromProto (iceCandidateInitToProto (ToJSON host_candidate))
    = ToJSON host_candidate /\
  SDPMLineIndex (iceCandidateFromProto wide_index_candidate) = Some 0%Z.
Proof.
  assert (init_typed (ToJSON host_candidate)) as Hij
    by (intros v [= <-]; unfold is_uint16; lia).
  assert (proto_typed wide_index_candidate) as Hp
    by (intros v [= <-]; unfold is_uint32; lia).
  split.
  - exact (proj2 (proj2 (candidate_translation _ _ Hij Hp))).
  - exact (proj1 (proj2 (proj2 (proj2 (proj1 (proj2
             (candidate_translation _ _ Hij Hp))))))).
Defined.

(** ** Runs and invariants *)

Lemma run_app acts1 acts2 s :
  run (acts1 ++ acts2) s = run acts1 s ≫= run acts2.
Proof.
  revert s. induction acts1 as [|a acts1 IH]; intros s; simpl; [done|].
  destruct (exec a s); simpl; [apply IH | done].
Qed.

Lemma run_invariant (P : State -> Prop) :
  (forall s a s', P s -> exec a s = Some s' -> P s') ->
  forall acts s s', P s -> run acts s = Some s' -> P s'.
Proof.
  intros Hstep acts. induction acts as [|a acts IH]; intros s s' HP Hrun;
    simpl in Hrun.
  - by simplify_eq.
  - destruct (exec a s) as [s1|] eqn:Hexec; [|done]. eauto.
Qed.

Lemma reachable_initial b : reachable (initial b).
Proof. by exists b, []. Qed.

Lemma reachable_step s a s' :
  reachable s -> exec a s = Some s' -> reachable s'.
Proof.
  intros (b & acts & Hrun) Hexec. exists b, (acts ++ [a]).
  rewrite run_app, Hrun. simpl. by rewrite Hexec.
Qed.

Lemma reachable_run s acts s' :
  reachable s -> run acts s = Some s' -> reachable s'.
Proof.
  intros Hr. revert s Hr. induction acts as [|a acts IH]; intros s Hr Hrun;
    simpl in Hrun.
  - by simplify_eq.
  - destruct (exec a s) as [s1|] eqn:Hexec; [|done].
    eauto using reachable_step.
Qed.

Lemma reachable_invariant (P : State -> Prop) :
  (forall b, P (initial b)) ->
  (forall s a s', reachable s -> P s -> exec a s = Some s' -> P s') ->
  forall s, reachable s -> P s.
Proof.
  intros Hinit Hstep s (b & acts & Hrun).
  assert (reachable (initial b) /\ P (initial b)) as Hstart
    by (split; [apply reachable_initial | apply Hinit]).
  revert Hstart Hrun. generalize (initial b). clear Hinit.
  induction acts as [|a acts IH]; intros s0 [Hr HP] Hrun; simpl in Hrun.
  - by simplify_eq.
  - destruct (exec a s0) as [s1|] eqn:Hexec; [|done].
    apply (IH s1); [|done]. split; eauto using reachable_step.
Qed.

(** Case analysis on a transition: one goal per program point and outcome. *)
Ltac exec_unfold H :=
  unfold exec, ctx_done, gather, gather_complete, main_step, main_ctx_done,
    main_gather_complete, main_ready, main_recv_err, exch_step, exch_recv,
    hook_step, on_message, sendDone, sendError, Once_Do, CallUpdate_call,
    or_return, spawn_hook, set_hook, cancel_exchange, offered, finish,
    multierr_Combine, all_deferred in H.

Ltac rew_goal :=
  repeat match goal with
         | H : ?f ?s = _ |- context [?f ?s] => rewrite H
         end.

Ltac exec_cases H :=
  exec_unfold H; repeat case_match; simplify_eq; simpl in *; rew_goal.

Lemma ctx_parent_step s a s' :
  ctx_parent s -> exec a s = Some s' -> ctx_parent s'.
Proof.
  unfold ctx_parent. intros HP Hexec. destruct a; exec_cases Hexec; eauto.
Qed.

Lemma ctx_parent_reachable s : reachable s -> ctx_parent s.
Proof.
  apply reachable_invariant; [|eauto using ctx_parent_step].
  intros b [e He]. simpl in He. done.
Qed.

(** ** The one-shot guard *)

Lemma once_inv_step s a s' :
  once_inv s -> exec a s = Some s' -> once_inv s'.
Proof.
  unfold once_inv. intros HP Hexec.
  destruct a; exec_cases Hexec; rewrite ?HP; try done; try congruence; lia.
Qed.

Lemma once_inv_reachable s : reachable s -> once_inv s.
Proof.
  apply reachable_invariant; [done|]. eauto using once_inv_step.
Qed.

Lemma termination_step_guarded s a s' :
  exec a s = Some s' ->
  terminations (trace s') <> terminations (trace s) ->
  sendDoneErrorOnce s = false /\ sendDoneErrorOnce s' = true.
Proof.
  intros Hexec. destruct a; exec_cases Hexec; try done; try congruence.
Qed.

(** C1. In every reachable state of a dial attempt at most one Termination
    Record (done or error update) has been sent to the signaling service;
    one has been sent exactly when the one-shot guard [sendDoneErrorOnce]
    has run, and every transition that sends one, on whichever path, finds
    the guard unused and leaves it used. *)
Theorem at_most_one_termination_record s :
  reachable s ->
  terminations (trace s) <= 1 /\
  (terminations (trace s) = 1 <-> sendDoneErrorOnce s = true) /\
  (forall a s', exec a s = Some s' ->
     terminations (trace s') <> terminations (trace s) ->
     sendDoneErrorOnce s = false /\ sendDoneErrorOnce s' = true).
Proof.
  intros Hr. pose proof (once_inv_reachable s Hr) as Hinv.
  unfold once_inv in Hinv. split; [|split].
  - destruct (sendDoneErrorOnce s); lia.
  - destruct (sendDoneErrorOnce s); split; (done || lia).
  - intros a s'. apply termination_step_guarded.
Qed.

(** A successful trickle dial: the hook sends done on the nil candidate,
    the readiness path finds the guard used, and one Termination Record
    is in the trace. *)
Lemma at_most_one_termination_record_witness :
  exists s, run trickle_success (initial false) = Some s /\
    main s = M_Returned (Some clientCh) [] /\
    terminations (trace s) = 1 /\
    (terminations (trace s) = 1 <-> sendDoneErrorOnce s = true).
Proof.
  eexists. split; [vm_compute; reflexivity|].
  split; [reflexivity|]. split; [reflexivity|].
  refine (proj1 (proj2 (at_most_one_termination_record _ _))).
  exists false, trickle_success. vm_compute. reflexivity.
Defined.

(** ** The remote-description-ready signal *)

Lemma remote_applied_cons e t :
  remote_applied (e :: t) = is_remote_applied e || remote_applied t.
Proof. done. Qed.

Lemma signal_inv_step s a s' :
  signal_inv s -> exec a s = Some s' -> signal_inv s'.
Proof.
  unfold signal_inv. intros (Hset & Hclose & Hhooks & Htrace) Hexec.
  destruct a; exec_cases Hexec;
    rewrite ?remote_applied_cons, ?orb_true_r;
    repeat split; try done; try congruence; auto;
    try (apply Forall_insert || apply Forall_app_2); simpl; auto;
    try (by apply Forall_true);
    try (by (eapply Forall_lookup_1 in Hhooks; eauto));
    by repeat constructor.
Qed.

Lemma signal_inv_reachable s : reachable s -> signal_inv s.
Proof.
  apply reachable_invariant; [|eauto using signal_inv_step].
  intros b. repeat split; simpl; done.
Qed.

Lemma candidates_after_remote_split later e earlier :
  candidates_after_remote (later ++ e :: earlier) ->
  is_candidate_update e = true -> remote_applied earlier = true.
Proof.
  induction later as [|e' later IH]; simpl; intros [H1 H2]; auto.
Qed.

Lemma waiting_hook_step s a s' n h :
  exec a s = Some s' -> hooks s !! n = Some h -> waiting h ->
  exists h', hooks s' !! n = Some h' /\ kept_or_released s h h'.
Proof.
  unfold kept_or_released, waiting. intros Hexec Hn Hw.
  assert (n < length (hooks s)) by by eapply lookup_lt_Some.
  destruct a; exec_cases Hexec;
    try (by (exists h; rewrite ?lookup_app_l by done; auto));
    match goal with
    | |- context [ <[?m := _]> _ ] =>
        destruct (decide (m = n)) as [->|];
          [rewrite list_lookup_insert_eq by done
          |rewrite list_lookup_insert_ne by done; by (exists h; auto)]
    end;
    simplify_eq; destruct Hw; simpl in *; try congruence;
    eexists; (split; [reflexivity|]); simpl; eauto 6.
Qed.

Lemma hook_released s n h r :
  hooks s !! n = Some h -> hook_pc h = H_Select -> remoteDescSet s = true ->
  exists s', exec (AHook n true r) s = Some s' /\
    hooks s' !! n = Some {| hook_arg := hook_arg h; hook_pc := H_Send |}.
Proof.
  intros Hn Hpc Hset. simpl. unfold hook_step. rewrite Hn, Hpc, Hset.
  eexists. split; [done|]. simpl.
  apply list_lookup_insert_eq. by eapply lookup_lt_Some.
Qed.

Lemma hook_sends_candidate s n h i b r s' :
  hooks s !! n = Some h -> hook_pc h = H_Send -> hook_arg h = Some i ->
  exec (AHook n b r) s = Some s' ->
  trace s' =
    EvCallUpdate (exchangeCtxErr s)
      {| Uuid := uuid s; Update := Update_Candidate (iceCandidateToProto i) |}
    :: trace s.
Proof.
  intros Hn Hpc Harg Hexec. exec_cases Hexec; congruence.
Qed.

(** C2. In trickle mode, in every reachable state (every interleaving of
    candidate discovery, the inbound stream and the orchestrator): each
    candidate update in the trace has a successful [SetRemoteDescription]
    before it; the ready signal is set only after such a call; an
    invocation of the hook that waits keeps its candidate under every
    transition, and leaves the wait only towards the send, with the signal
    set, or towards the return, with the exchange context ended; once the
    signal is set a waiting invocation can go on; and an invocation that
    goes on with a candidate sends it, translated. *)
Theorem no_candidate_before_remote_description s :
  reachable s -> DisableTrickleICE s = false ->
  (forall later e earlier,
     trace s = later ++ e :: earlier -> is_candidate_update e = true ->
     remote_applied earlier = true) /\
  (remoteDescSet s = true -> remote_applied (trace s) = true) /\
  (forall n h, hooks s !! n = Some h -> waiting h ->
     forall a s', exec a s = Some s' ->
     exists h', hooks s' !! n = Some h' /\ kept_or_released s h h') /\
  (forall n h r, hooks s !! n = Some h -> hook_pc h = H_Select ->
     remoteDescSet s = true ->
     exists s', exec (AHook n true r) s = Some s' /\
       hooks s' !! n = Some {| hook_arg := hook_arg h; hook_pc := H_Send |}) /\
  (forall n h i b r s', hooks s !! n = Some h -> hook_pc h = H_Send ->
     hook_arg h = Some i -> exec (AHook n b r) s = Some s' ->
     trace s' =
       EvCallUpdate (exchangeCtxErr s)
         {| Uuid := uuid s;
            Update := Update_Candidate (iceCandidateToProto i) |}
       :: trace s).
Proof.
  intros Hr _. destruct (signal_inv_reachable s Hr) as (Hset & _ & _ & Htr).
  repeat split.
  - intros later e earlier Heq. rewrite Heq in Htr.
    by eapply candidates_after_remote_split.
  - done.
  - eauto using waiting_hook_step.
  - eauto using hook_released.
  - eauto using hook_sends_candidate.
Qed.

(** A candidate gathered before the init message is relayed after the
    answer is applied, with the assigned session identifier. *)
Lemma no_candidate_before_remote_description_witness :
  exists s,
    run candidate_relayed (initial false) = Some s /\
    updates (trace s) =
      [(None, {| Uuid := "session-1";
                 Update := Update_Candidate
                             (iceCandidateToProto host_candidate) |})] /\
    (forall later e earlier,
       trace s = later ++ e :: earlier -> is_candidate_update e = true ->
       remote_applied earlier = true).
Proof.
  eexists. split; [vm_compute; reflexivity|]. split; [reflexivity|].
  refine (proj1 (no_candidate_before_remote_description _ _ _)).
  - exists false, candidate_relayed. vm_compute. reflexivity.
  - reflexivity.
Defined.

(** ** The session identifier *)

Lemma assigned_cons_other e t :
  init_uuid e = None -> assigned (e :: t) = assigned t.
Proof. simpl. intros ->. by destruct (assigned t). Qed.

Lemma assigned_cons_Some e t u :
  assigned t = Some u -> assigned (e :: t) = Some u.
Proof. simpl. by intros ->. Qed.

Lemma assigned_init_received t :
  assigned t = None <-> init_received t = false.
Proof.
  unfold init_received. induction t as [|e t IH]; simpl; [done|].
  destruct (assigned t) as [u|].
  - destruct IH as [_ IH]. split; [done|]. intros [_ H]%orb_false_iff.
    by specialize (IH H).
  - destruct IH as [IH _]. rewrite IH by done. rewrite orb_false_r.
    destruct e as [|[u []]| | | | | |]; simpl; split; done.
Qed.

Lemma init_inv_step s a s' :
  init_inv s -> exec a s = Some s' -> init_inv s'.
Proof.
  unfold init_inv. intros (Huuid & Hexch & Hset & Hspawn) Hexec.
  destruct (assigned (trace s)) as [u|] eqn:Ha;
    destruct a; exec_cases Hexec; simpl;
    repeat match goal with
           | H : main s = _ |- _ => rewrite H in Hspawn; simpl in Hspawn
           end;
    try (rewrite Hspawn in * by done; simpl in * );
    repeat match goal with
           | H : exch s = _ |- _ => rewrite H in Hexch; simpl in Hexch
           | m : CallResponse |- _ => destruct m as [? ?]; simpl in *
           end;
    simplify_eq; simpl; rewrite ?Huuid;
    repeat split; try done; try congruence; eauto;
    try (by intros ?%Hspawn);
    match goal with h : bool |- _ => by destruct h end.
Qed.

Lemma init_inv_reachable s : reachable s -> init_inv s.
Proof.
  apply reachable_invariant; [|eauto using init_inv_step].
  intros b. repeat split; simpl; done.
Qed.








(** ** Protocol violations *)

Lemma aborted_step s0 s a s' :
  reachable s ->
  aborted (exch s) /\ added (trace s) = added (trace s0) ->
  exec a s = Some s' ->
  aborted (exch s') /\ added (trace s') = added (trace s0).
Proof.
  intros Hr [Hab Hadd] Hexec.
  destruct (init_inv_reachable s Hr) as (_ & _ & _ & Hspawn).
  destruct a; exec_cases Hexec; try done;
    match goal with
    | H : exch s = _ |- _ => by rewrite H in Hab
    | H : main s = _ |- _ => by rewrite (Hspawn eq_refl) in Hab
    end.
Qed.

Lemma aborted_run s acts s' :
  reachable s -> aborted (exch s) -> run acts s = Some s' ->
  aborted (exch s') /\ added (trace s') = added (trace s).
Proof.
  intros Hr Hab Hrun.
  apply (run_invariant
           (fun s1 => reachable s1 /\ aborted (exch s1) /\
                      added (trace s1) = added (trace s))) in Hrun;
    [tauto | | done].
  intros s1 a s2 (Hr1 & Hab1) Hexec.
  split; [by eapply reachable_step | by eapply aborted_step].
Qed.

Lemma reported_error_received s e r :
  exch s = E_SendErr e -> main s = M_doCall ->
  exists s', exec (AMainRecvErr FromExchange r) s = Some s' /\
    main s' = M_fail (multierr_Combine e r).
Proof.
  intros Hexch Hmain. simpl. unfold main_recv_err, offered.
  rewrite Hmain, Hexch. by eexists.
Qed.

(** C6. Whatever was received before, if no init message has been received
    and the next inbound message is an update, [exchangeCandidates] returns
    the error "got update stage before init stage": [AddICECandidate] is
    not called for the carried candidate, nor for any other in the rest of
    the run, the goroutine receives no further message, and the error is
    offered to the orchestrator, which takes it if it is waiting. *)
Theorem update_before_init_rejected s haveInit id upd s1 :
  reachable s -> exch s = E_Recv haveInit ->
  init_received (trace s) = false ->
  exec (ARecv (inl {| respUuid := id; respStage := StageUpdate upd |})) s
    = Some s1 ->
  exch s1 = E_SendErr [ErrUpdateBeforeInit] /\
  added (trace s1) = added (trace s) /\
  (forall acts s2, run acts s1 = Some s2 ->
     aborted (exch s2) /\ added (trace s2) = added (trace s)) /\
  (main s1 = M_doCall -> forall r,
     exists s2, exec (AMainRecvErr FromExchange r) s1 = Some s2 /\
       main s2 = M_fail (ErrUpdateBeforeInit :: r)).
Proof.
  intros Hr Hexch Hinit%assigned_init_received Hexec.
  destruct (init_inv_reachable s Hr) as (_ & Hknows & _).
  rewrite Hexch, Hinit in Hknows. simpl in Hknows.
  destruct haveInit; [by destruct Hknows|].
  simpl in Hexec. unfold exch_recv, on_message in Hexec.
  rewrite Hexch in Hexec. simpl in Hexec. simplify_eq.
  split; [done|]. split; [done|]. split.
  - intros acts s2 Hrun. apply aborted_run in Hrun; [done| |done].
    by apply (reachable_step s (ARecv (inl {| respUuid := id;
                respStage := StageUpdate upd |}))); 
      [|simpl; unfold exch_recv, on_message; rewrite Hexch].
  - intros Hmain r. by apply (reported_error_received _ [_]).
Qed.

(** The first inbound message is an update. *)
Lemma update_before_init_rejected_witness :
  exists s s1,
    run (trickle_until_doCall ++ [AExchange []]) (initial false) = Some s /\
    exec (ARecv (inl (update_message "session-1"))) s = Some s1 /\
    exch s1 = E_SendErr [ErrUpdateBeforeInit] /\
    added (trace s1) = added (trace s).
Proof.
  eexists. eexists. split; [vm_compute; reflexivity|].
  split; [vm_compute; reflexivity|].
  refine (let H := update_before_init_rejected _ false _ _ _ _ _ _ _ in
          conj (proj1 H) (proj1 (proj2 H))).
  - exists false, (trickle_until_doCall ++ [AExchange []]).
    vm_compute. reflexivity.
  - reflexivity.
  - reflexivity.
  - vm_compute. reflexivity.
Defined.

(** C7. Whatever was received before, if an init message has assigned the
    session identifier [u] and the next inbound message is an update with
    another identifier, [exchangeCandidates] returns the uuid-mismatch
    error: [AddICECandidate] is not called for the carried candidate, nor
    for any other in the rest of the run, and the error is offered to the
    orchestrator, which takes it if it is waiting. *)
Theorem update_with_other_uuid_rejected s haveInit u id upd s1 :
  reachable s -> exch s = E_Recv haveInit ->
  assigned (trace s) = Some u -> id <> u ->
  exec (ARecv (inl {| respUuid := id; respStage := StageUpdate upd |})) s
    = Some s1 ->
  uuid s = u /\
  exch s1 = E_SendErr [ErrUuidMismatch id u] /\
  added (trace s1) = added (trace s) /\
  (forall acts s2, run acts s1 = Some s2 ->
     aborted (exch s2) /\ added (trace s2) = added (trace s)) /\
  (main s1 = M_doCall -> forall r,
     exists s2, exec (AMainRecvErr FromExchange r) s1 = Some s2 /\
       main s2 = M_fail (ErrUuidMismatch id u :: r)).
Proof.
  intros Hr Hexch Hinit Hne Hexec.
  destruct (init_inv_reachable s Hr) as (Huuid & Hknows & _).
  rewrite Hexch, Hinit in Hknows. rewrite Hinit in Huuid.
  simpl in Hknows, Huuid.
  destruct haveInit; [|done].
  simpl in Hexec. unfold exch_recv, on_message in Hexec.
  rewrite Hexch in Hexec. simpl in Hexec. rewrite Huuid in Hexec.
  apply String.eqb_neq in Hne. rewrite Hne in Hexec. simpl in Hexec.
  assert (reachable s1) as Hr1.
  { apply (reachable_step s (ARecv (inl {| respUuid := id;
             respStage := StageUpdate upd |}))); [done|].
    simpl; unfold exch_recv, on_message; rewrite Hexch; simpl.
    by rewrite Huuid, Hne. }
  simplify_eq.
  split; [done|]. split; [done|]. split; [done|]. split.
  - intros acts s2 Hrun. by apply aborted_run in Hrun.
  - intros Hmain r. by apply (reported_error_received _ [_]).
Qed.

(** After the init of session-1, an update of session-2 arrives. *)
Lemma update_with_other_uuid_rejected_witness :
  exists s s1,
    run trickle_after_init (initial false) = Some s /\
    exec (ARecv (inl (update_message "session-2"))) s = Some s1 /\
    uuid s = "session-1"%string /\
    exch s1 = E_SendErr [ErrUuidMismatch "session-2" "session-1"].
Proof.
  eexists. eexists. split; [vm_compute; reflexivity|].
  split; [vm_compute; reflexivity|].
  refine (let H := update_with_other_uuid_rejected _ true "session-1"
                     "session-2" _ _ _ _ _ _ _ in
          conj (proj1 H) (proj1 (proj2 H))).
  - exists false, trickle_after_init. vm_compute. reflexivity.
  - reflexivity.
  - reflexivity.
  - done.
  - vm_compute. reflexivity.
Defined.

(** ** Vanilla mode *)

Lemma mode_step s a s' :
  exec a s = Some s' -> DisableTrickleICE s' = DisableTrickleICE s.
Proof. intros Hexec. destruct a; exec_cases Hexec; done. Qed.

Lemma vanilla_inv_step s a s' :
  vanilla_inv s -> exec a s = Some s' -> vanilla_inv s'.
Proof.
  intros Hinv Hexec Hmode. rewrite (mode_step _ _ _ Hexec) in Hmode.
  destruct (Hinv Hmode) as (Hhook & Hhooks & Hcand & Hblock & Hsdp & Hcalls).
  clear Hinv.
  destruct a; exec_cases Hexec;
    unfold holds_complete_sdp, LocalDescription in *; simpl in *;
    try match goal with
        | H : main s = _ |- _ =>
            rewrite ?H in Hblock; rewrite ?H in Hsdp;
            simpl in Hblock, Hsdp
        end;
    rew_goal;
    try congruence; try (by rewrite Hhooks in * );
    split_and?; try done; try tauto;
    try (intros d [->|Hd]%elem_of_cons; [tauto | by apply Hcalls]);
    try (intros d Hd; destruct (Hcalls d Hd) as [Hgc' ?];
         rewrite Hgc', ?andb_false_r in *; done);
    try (rewrite ?Hsdp, ?andb_false_r in *; done);
    try (destruct (main s); try done; destruct Hsdp as [Hgc' ?];
         try done; rewrite Hgc', andb_false_r in *; done).
Qed.

Lemma vanilla_inv_reachable s : reachable s -> vanilla_inv s.
Proof.
  apply reachable_invariant; [|eauto using vanilla_inv_step].
  intros b _. split_and!; simpl; try done. by intros d ?%elem_of_nil.
Qed.

Lemma wait_gather_step s a s' :
  main s = M_F_WaitGather -> exec a s = Some s' ->
  main s' = M_F_WaitGather \/
  (main s' = M_encodeSDP /\ gatherComplete s = true) \/
  (exists e, ctxErr s = Some e /\
     main s' = M_Returning None [ErrContext e] [D_pcClose; D_connClose]).
Proof.
  intros Hmain Hexec.
  destruct a; exec_cases Hexec; try congruence; eauto.
Qed.

Lemma close_signal_step s r :
  DisableTrickleICE s = true -> exch s = E_CloseRemoteDescSet ->
  exists s', exec (AExchange r) s = Some s' /\
    exch s' = E_VanillaDone /\ remoteDescSet s' = true /\ trace s' = trace s.
Proof.
  intros Hmode Hexch. simpl. unfold exch_step. rewrite Hexch, Hmode.
  by eexists.
Qed.

Lemma vanilla_done_step s r :
  exch s = E_VanillaDone ->
  exists s', exec (AExchange r) s = Some s' /\ aborted (exch s') /\
    trace s' =
      if sendDoneErrorOnce s then trace s
      else EvCallUpdate (exchangeCtxErr s)
             {| Uuid := uuid s; Update := Update_Done |} :: trace s.
Proof.
  intros Hexch. simpl. unfold exch_step, sendDone, Once_Do, CallUpdate_call.
  rewrite Hexch. destruct (sendDoneErrorOnce s); [by eexists|].
  destruct r; by eexists.
Qed.

(** C3. In vanilla mode, in every reachable state: no candidate update
    has been sent and no hook is installed or running; each initial request
    was sent after gathering had completed and carries all gathered
    candidates; the factory leaves its wait only with gathering complete
    (or with the context's error); and once the answer of the init message
    is applied the receive goroutine sets the ready signal and goes
    straight to [sendDone], which sends the done update unless a
    Termination Record was sent before, and returns. *)
Theorem vanilla_mode_sends_no_candidates s :
  reachable s -> DisableTrickleICE s = true ->
  existsb is_candidate_update (trace s) = false /\
  hookInstalled s = false /\ hooks s = [] /\
  (forall d, d ∈ calls (trace s) ->
     gatherComplete s = true /\ sdpCandidates d = gathered s) /\
  (main s = M_F_WaitGather -> forall a s', exec a s = Some s' ->
     main s' = M_F_WaitGather \/
     (main s' = M_encodeSDP /\ gatherComplete s = true) \/
     (exists e, ctxErr s = Some e /\
        main s' = M_Returning None [ErrContext e] [D_pcClose; D_connClose])) /\
  (exch s = E_CloseRemoteDescSet -> forall r,
     exists s', exec (AExchange r) s = Some s' /\
       exch s' = E_VanillaDone /\ remoteDescSet s' = true /\
       trace s' = trace s) /\
  (exch s = E_VanillaDone -> forall r,
     exists s', exec (AExchange r) s = Some s' /\ aborted (exch s') /\
       trace s' =
         if sendDoneErrorOnce s then trace s
         else EvCallUpdate (exchangeCtxErr s)
                {| Uuid := uuid s; Update := Update_Done |} :: trace s).
Proof.
  intros Hr Hmode.
  destruct (vanilla_inv_reachable s Hr Hmode)
    as (Hhook & Hhooks & Hcand & _ & _ & Hcalls).
  split_and!; try done.
  - intros d Hd. destruct (Hcalls d Hd) as [? ->]. done.
  - eauto using wait_gather_step.
  - eauto using close_signal_step.
  - eauto using vanilla_done_step.
Qed.

(** A vanilla dial up to the processing of the init message: the request
    carried the gathered candidate, and the next step of the receive
    goroutine sends done. *)
Lemma vanilla_mode_sends_no_candidates_witness :
  exists s s',
    run (vanilla_until_doCall ++ receive_init) (initial true) = Some s /\
    calls (trace s) = [{| sdpCandidates := [host_candidate] |}] /\
    exch s = E_VanillaDone /\
    exec (AExchange []) s = Some s' /\
    updates (trace s') =
      [(None, {| Uuid := "session-1"; Update := Update_Done |})] /\
    existsb is_candidate_update (trace s) = false.
Proof.
  eexists. eexists. split; [vm_compute; reflexivity|].
  split; [reflexivity|]. split; [reflexivity|].
  split; [vm_compute; reflexivity|]. split; [reflexivity|].
  refine (proj1 (vanilla_mode_sends_no_candidates _ _ _)).
  - exists true, (vanilla_until_doCall ++ receive_init).
    vm_compute. reflexivity.
  - reflexivity.
Defined.

(** ** What [dialWebRTC] returns *)

Lemma closes_inv_step s a s' :
  closes_inv s -> exec a s = Some s' -> closes_inv s'.
Proof.
  unfold closes_inv. intros Hinv Hexec.
  destruct a; exec_cases Hexec; auto;
    repeat match goal with
           | H : main s = _ |- _ => rewrite H in Hinv; simpl in Hinv
           end;
    tauto.
Qed.

Lemma closes_inv_reachable s : reachable s -> closes_inv s.
Proof.
  apply reachable_invariant; [by right | eauto using closes_inv_step].
Qed.

Lemma result_is_step ch pre s a s' :
  result_is ch pre s -> exec a s = Some s' -> result_is ch pre s'.
Proof.
  intros Hres Hexec.
  destruct a; exec_cases Hexec; unfold result_is in *; simpl in *;
    try done;
    match goal with
    | H : main _ = _ |- _ => rewrite H in Hres; simpl in Hres
    end;
    try done; destruct Hres as [-> ->]; by rewrite ?app_assoc.
Qed.

Lemma result_is_run ch pre s acts s' :
  result_is ch pre s -> run acts s = Some s' -> result_is ch pre s'.
Proof. apply run_invariant, result_is_step. Qed.

Lemma result_is_returned ch pre s ch' err :
  result_is ch pre s -> main s = M_Returned ch' err ->
  ch' = ch /\ err = pre ++ closes (trace s).
Proof. unfold result_is. intros Hres Hmain. by rewrite Hmain in Hres. Qed.

(** The deferred calls run to the end; when the closes return nil the
    pending error is returned as it is. *)
Lemma returning_completes ds s ch err :
  main s = M_Returning ch err ds ->
  exists s', run (replicate (S (length ds)) (AMain [])) s = Some s' /\
    main s' = M_Returned ch err.
Proof.
  revert s err. induction ds as [|d ds IH]; intros s err Hmain.
  - change (replicate (S (length [])) (AMain [])) with [AMain ([] : goerror)].
    cbn [run exec]. unfold main_step. rewrite Hmain. by eexists.
  - change (replicate (S (length (d :: ds))) (AMain []))
      with (AMain [] :: replicate (S (length ds)) (AMain [])).
    assert (exists s1, exec (AMain []) s = Some s1 /\
              main s1 = M_Returning ch err ds) as (s1 & Hexec & Hmain1).
    { simpl. unfold main_step. rewrite Hmain.
      destruct d; eexists; (split; [reflexivity|]); simpl;
        unfold multierr_Combine; by rewrite ?app_nil_r. }
    cbn [run]. rewrite Hexec. by apply IH.
Qed.

(** C5. If the initial [Call] returns an error with the gRPC status
    Unimplemented, [dialWebRTC] returns no channel and [ErrNoWebRTCSignaler]
    combined with what the deferred closes of the peer connection and of
    the control connection returned: under every interleaving the returned
    error has [ErrNoWebRTCSignaler] as its first component and satisfies
    [errors.Is] for it, and when the closes return nil it is
    [ErrNoWebRTCSignaler] itself. *)
Theorem unimplemented_call_returns_no_signaler s d r :
  reachable s -> main s = M_Call d -> r <> [] ->
  status_FromError r = (codes_Unimplemented, true) ->
  exists s1, exec (AMain r) s = Some s1 /\
    main s1 = M_Returning None [ErrNoWebRTCSignaler] all_deferred /\
    (forall acts s2 ch err,
       run acts s1 = Some s2 -> main s2 = M_Returned ch err ->
       ch = None /\ err = ErrNoWebRTCSignaler :: closes (trace s2) /\
       errors_Is err ErrNoWebRTCSignaler = true) /\
    (exists s2, run (replicate 4 (AMain [])) s1 = Some s2 /\
       main s2 = M_Returned None [ErrNoWebRTCSignaler]).
Proof.
  intros Hr Hmain Hnil Hstatus.
  assert (exec (AMain r) s =
          Some (set_main (M_Returning None [ErrNoWebRTCSignaler] all_deferred)
                  (emit (EvCall d) s))) as Hexec.
  { simpl. unfold main_step. rewrite Hmain. destruct r; [done|].
    by rewrite Hstatus. }
  eexists. split; [exact Hexec|]. split; [done|]. split.
  - intros acts s2 ch err Hrun Hret.
    assert (result_is None [ErrNoWebRTCSignaler] s2) as Hres.
    { eapply result_is_run; [|exact Hrun]. unfold result_is. simpl.
      destruct (closes_inv_reachable s Hr) as [Hret'| ->]; [|done].
      by rewrite Hmain in Hret'. }
    destruct (result_is_returned _ _ _ _ _ Hres Hret) as [-> ->].
    split; [done|]. split; [done|]. unfold errors_Is.
    apply bool_decide_eq_true. simpl. left.
  - by apply (returning_completes all_deferred).
Qed.

(** The initial call fails with Unimplemented and the closes succeed. *)
Lemma unimplemented_call_returns_no_signaler_witness :
  exists s,
    run (replicate 9 (AMain [])) (initial false) = Some s /\
    exists s1,
      exec (AMain [ErrStatus codes_Unimplemented "unknown service"]) s
        = Some s1 /\
      main s1 = M_Returning None [ErrNoWebRTCSignaler] all_deferred /\
      exists s2, run (replicate 4 (AMain [])) s1 = Some s2 /\
        main s2 = M_Returned None [ErrNoWebRTCSignaler].
Proof.
  eexists. split; [vm_compute; reflexivity|].
  match goal with
  | |- ex (fun s1 => exec (AMain ?r) ?s = Some s1 /\ _) =>
      destruct (unimplemented_call_returns_no_signaler
                  s {| sdpCandidates := [] |} r)
        as (s1 & Hexec & Hmain & _ & Hdone)
  end.
  - exists false, (replicate 9 (AMain [])). vm_compute. reflexivity.
  - reflexivity.
  - done.
  - reflexivity.
  - exists s1. split; [exact Hexec|]. split; [exact Hmain | exact Hdone].
Defined.

(** ** Readiness *)

Lemma ready_step s :
  main s = M_doCall -> exec AMainReady s = Some (set_main M_sendDone s).
Proof. intros Hmain. simpl. unfold main_ready. by rewrite Hmain. Qed.

(** C9 as worded fails on the code: the channel becomes ready, the done
    update is sent and its call returns an error, and [dialWebRTC] returns
    that error without the channel. *)
Lemma readiness_claim_fails : ~ readiness_claim.
Proof.
  intros Hclaim.
  assert (exists s s2,
            run trickle_until_doCall (initial false) = Some s /\
            main s = M_doCall /\
            run (AMain [ErrStatus 14 "unavailable"] :: replicate 4 (AMain []))
              (set_main M_sendDone s) = Some s2 /\
            main s2 = M_Returned None [ErrStatus 14 "unavailable"])
    as (s & s2 & Hs & Hmain & Hs2 & Hret).
  { eexists. eexists. split; [vm_compute; reflexivity|].
    split; [reflexivity|]. split; [vm_compute; reflexivity | reflexivity]. }
  eapply Hclaim in Hret as [_ Hch]; [done | | done | by apply ready_step | done].
  by exists false, trickle_until_doCall.
Qed.

(** C9, amended. When the ready case of [doCall] is taken the orchestrator
    goes to [sendDone]; there its step sends the done update if no
    Termination Record was sent before; if nothing had to be sent, or the
    call returned nil, [dialWebRTC] returns the established channel (with
    what closing the control connection returned as error), and otherwise
    it returns no channel and the error of the call. *)
Theorem ready_sends_done_and_returns_channel s r :
  reachable s -> main s = M_sendDone ->
  (forall s0, main s0 = M_doCall ->
     exec AMainReady s0 = Some (set_main M_sendDone s0)) /\
  exists s1, exec (AMain r) s = Some s1 /\
    sendDoneErrorOnce s1 = true /\
    trace s1 =
      (if sendDoneErrorOnce s then trace s
       else EvCallUpdate (exchangeCtxErr s)
              {| Uuid := uuid s; Update := Update_Done |} :: trace s) /\
    (forall acts s2 ch err,
       run acts s1 = Some s2 -> main s2 = M_Returned ch err ->
       (sendDoneErrorOnce s = true \/ r = [] ->
        ch = Some clientCh /\ err = closes (trace s2)) /\
       (sendDoneErrorOnce s = false -> r <> [] ->
        ch = None /\ err = r ++ closes (trace s2))) /\
    (sendDoneErrorOnce s = true \/ r = [] ->
     exists s2, run (replicate 3 (AMain [])) s1 = Some s2 /\
       main s2 = M_Returned (Some clientCh) []).
Proof.
  intros Hr Hmain. split; [apply ready_step|].
  assert (closes (trace s) = []) as Hcl.
  { destruct (closes_inv_reachable s Hr) as [Hret|]; [|done].
    by rewrite Hmain in Hret. }
  assert (exists s1, exec (AMain r) s = Some s1 /\
            sendDoneErrorOnce s1 = true /\
            trace s1 =
              (if sendDoneErrorOnce s then trace s
               else EvCallUpdate (exchangeCtxErr s)
                      {| Uuid := uuid s; Update := Update_Done |} :: trace s) /\
            (sendDoneErrorOnce s = true \/ r = [] ->
             main s1 = M_Returning (Some clientCh) []
                         [D_exchangeCancel; D_connClose] /\
             result_is (Some clientCh) [] s1) /\
            (sendDoneErrorOnce s = false -> r <> [] -> result_is None r s1))
    as (s1 & Hexec & Honce & Htrace & Hgood & Hbad).
  { simpl. unfold main_step, sendDone, Once_Do, CallUpdate_call, result_is.
    rewrite Hmain.
    destruct (sendDoneErrorOnce s) eqn:Ho; [|destruct r as [|e r]];
      eexists; (split; [reflexivity|]); simpl; rewrite ?Ho, ?Hcl, ?app_nil_r;
      split_and!; try done; intros; by destruct_or?. }
  exists s1. split_and!; try done.
  - intros acts s2 ch err Hrun Hret. split.
    + intros Hok. destruct (Hgood Hok) as [_ Hres].
      eapply result_is_run in Hres; [|done].
      by destruct (result_is_returned _ _ _ _ _ Hres Hret) as [-> ->].
    + intros Ho Hne. specialize (Hbad Ho Hne).
      eapply result_is_run in Hbad; [|done].
      by destruct (result_is_returned _ _ _ _ _ Hbad Hret) as [-> ->].
  - intros Hok. destruct (Hgood Hok) as [Hm _].
    by apply (returning_completes [D_exchangeCancel; D_connClose]).
Qed.

(** The channel is ready at once: done is sent with the empty session
    identifier and the channel is returned. *)
Lemma ready_sends_done_and_returns_channel_witness :
  exists s,
    run (trickle_until_doCall ++ [AMainReady]) (initial false) = Some s /\
    exists s1, exec (AMain []) s = Some s1 /\
      updates (trace s1) = [(None, {| Uuid := ""; Update := Update_Done |})] /\
      exists s2, run (replicate 3 (AMain [])) s1 = Some s2 /\
        main s2 = M_Returned (Some clientCh) [].
Proof.
  eexists. split; [vm_compute; reflexivity|].
  match goal with
  | |- ex (fun s1 => exec (AMain ?r) ?s = Some s1 /\ _) =>
      destruct (ready_sends_done_and_returns_channel s r)
        as (_ & s1 & Hexec & _ & Htrace & _ & Hdone)
  end.
  - exists false, (trickle_until_doCall ++ [AMainReady]).
    vm_compute. reflexivity.
  - reflexivity.
  - exists s1. split; [exact Hexec|]. split.
    + rewrite Htrace. reflexivity.
    + apply Hdone. by right.
Defined.

(** ** Cancellation *)

Lemma after_cancellation_step s1 s a s' :
  after_cancellation s1 s -> exec a s = Some s' -> after_cancellation s1 s'.
Proof.
  intros (Hctx & new & Hnew & Hall) Hexec. unfold after_cancellation.
  destruct a; exec_cases Hexec; rewrite ?Hnew;
    try (by destruct Hctx);
    (split; [done|]);
    try (by exists new);
    match goal with
    | |- ex (fun _ => ?ev :: _ = _ /\ _) =>
        exists (ev :: new); split; [done|]; constructor; [|done]; simpl;
        rewrite <- ?Hnew; by rew_goal
    end.
Qed.

Lemma sent_ended new t :
  Forall on_ended_context new -> sent (new ++ t) = sent t.
Proof.
  induction 1 as [|ev new Hev _ IH]; [done|]. simpl.
  destruct ev as [| |[c|] req| | | | |]; simpl in *; try done.
Qed.

(** After a failed [doCall] the orchestrator's own step makes the guarded
    error update call and starts to return; no other step moves it. *)
Lemma fail_step c s a s' :
  main s = M_fail c -> exec a s = Some s' ->
  closes (trace s') = closes (trace s) /\
  ((main s' = M_fail c /\ forall upd, a <> AMain upd) \/
   exists upd, a = AMain upd /\
     main s' =
       M_Returning None (c ++ (if sendDoneErrorOnce s then [] else upd))
         all_deferred).
Proof.
  intros Hmain Hexec.
  destruct a; exec_cases Hexec; (split; [done|]);
    try (left; split; [congruence | done]);
    right; eexists; (split; [done|]);
    by rewrite ?app_nil_r.
Qed.

Lemma fail_run c acts : forall s s2 ch err,
  main s = M_fail c -> closes (trace s) = [] ->
  run acts s = Some s2 -> main s2 = M_Returned ch err ->
  ch = None /\
  exists before upd after sA,
    acts = before ++ AMain upd :: after /\
    run before s = Some sA /\ main sA = M_fail c /\
    err = c ++ (if sendDoneErrorOnce sA then [] else upd)
            ++ closes (trace s2).
Proof.
  induction acts as [|a acts IH]; intros s s2 ch err Hmain Hcl Hrun Hret;
    simpl in Hrun.
  - simplify_eq. congruence.
  - destruct (exec a s) as [s1|] eqn:Hexec; [|done].
    destruct (fail_step _ _ _ _ Hmain Hexec)
      as [Hcl1 [[Hmain1 _] | (upd & -> & Hmain1)]].
    + destruct (IH s1 s2 ch err Hmain1) as (-> & before & upd & after & sA &
                                             -> & Hbefore & HmainA & ->);
        [congruence | done | done |].
      split; [done|]. exists (a :: before), upd, after, sA.
      split_and!; [done | | done | done]. simpl. by rewrite Hexec.
    + assert (result_is None
                (c ++ (if sendDoneErrorOnce s then [] else upd)) s2) as Hres.
      { eapply result_is_run; [|exact Hrun]. unfold result_is.
        rewrite Hmain1. split; [done|]. rewrite Hcl1, Hcl.
        by rewrite app_nil_r. }
      destruct (result_is_returned _ _ _ _ _ Hres Hret) as [-> ->].
      split; [done|]. exists [], upd, acts, s.
      split_and!; [done | done | done |]. by rewrite <- app_assoc.
Qed.

(** C4. If the caller's context has ended with the cause [e] while the
    orchestrator waits in [doCall] and the [ctx.Done] case is taken, the
    channel wrapper is closed; from that closure on no update reaches the
    signaling service: every update call made afterwards, by any goroutine,
    is made on the already ended exchange context; and [dialWebRTC] returns
    no channel and the cancellation cause, combined, in this order, with
    what [Close] returned, with what the orchestrator's guarded error update
    call returned if the guard was still unused when it made it, and with
    what the deferred closes returned.  [errors.Is] holds for the cause,
    and the cause is returned alone when those calls return nil. *)
Theorem cancellation_during_wait s e r :
  reachable s -> main s = M_doCall -> ctxErr s = Some e ->
  exists s1, exec (AMainCtxDone r) s = Some s1 /\
    trace s1 = EvChannelClose r :: trace s /\
    (forall acts s2, run acts s1 = Some s2 ->
       sent (trace s2) = sent (trace s1) /\
       (exists new, trace s2 = new ++ trace s1 /\
          Forall on_ended_context new) /\
       (forall ch err, main s2 = M_Returned ch err ->
          ch = None /\ errors_Is err (ErrContext e) = true /\
          exists before upd after sA,
            acts = before ++ AMain upd :: after /\
            run before s1 = Some sA /\
            main sA = M_fail (ErrContext e :: r) /\
            err = ErrContext e :: r
                    ++ (if sendDoneErrorOnce sA then [] else upd)
                    ++ closes (trace s2))) /\
    (forall upd, exists s2,
       run (AMain upd :: replicate 4 (AMain [])) s1 = Some s2 /\
       main s2 =
         M_Returned None
           (ErrContext e :: r
              ++ (if sendDoneErrorOnce s then [] else upd))).
Proof.
  intros Hr Hmain Hctx.
  assert (exec (AMainCtxDone r) s =
          Some (set_main (M_fail (ErrContext e :: r))
                  (emit (EvChannelClose r) s))) as Hexec.
  { simpl. unfold main_ctx_done. by rewrite Hctx, Hmain. }
  eexists. split; [exact Hexec|]. split; [done|].
  set (s1 := set_main (M_fail (ErrContext e :: r))
               (emit (EvChannelClose r) s)) in *.
  assert (closes (trace s1) = []) as Hcl.
  { simpl. destruct (closes_inv_reachable s Hr) as [Hret'|]; [|done].
    by rewrite Hmain in Hret'. }
  split.
  - intros acts s2 Hrun.
    assert (after_cancellation s1 s2) as (_ & new & Hnew & Hall).
    { revert Hrun. apply (run_invariant (after_cancellation s1)
                            (after_cancellation_step s1)).
      split; [|by exists []]. simpl.
      apply (ctx_parent_reachable s Hr). by rewrite Hctx. }
    split; [by rewrite Hnew, sent_ended|]. split; [by exists new|].
    intros ch err Hret.
    destruct (fail_run (ErrContext e :: r) acts s1 s2 ch err)
      as (-> & before & upd & after & sA & -> & Hbefore & HmainA & ->);
      [done | done | done | done |].
    split; [done|]. split.
    + unfold errors_Is. apply bool_decide_eq_true. simpl. left.
    + by exists before, upd, after, sA.
  - intros upd.
    assert (exists s2, exec (AMain upd) s1 = Some s2 /\
              main s2 =
                M_Returning None
                  (ErrContext e :: r
                     ++ (if sendDoneErrorOnce s then [] else upd))
                  all_deferred) as (s2 & Hstep & Hmain2).
    { cbn [exec]. unfold main_step, sendError, Once_Do. simpl.
      destruct (sendDoneErrorOnce s); eexists; (split; [reflexivity|]);
        simpl; unfold multierr_Combine; by rewrite ?app_nil_r. }
    destruct (returning_completes all_deferred s2 _ _ Hmain2)
      as (s3 & Hrun & Hret).
    exists s3. split; [|done]. cbn [run]. rewrite Hstep. exact Hrun.
Qed.

(** The caller cancels while the orchestrator waits; the error update call
    is made on the ended context and returns that context's error. *)
Lemma cancellation_during_wait_witness :
  exists s,
    run canceled_during_wait (initial false) = Some s /\
    exists s1, exec (AMainCtxDone []) s = Some s1 /\
      trace s1 = EvChannelClose [] :: trace s /\
      exists s2,
        run (AMain [ErrStatus 1 "context canceled"]
               :: replicate 4 (AMain [])) s1 = Some s2 /\
        sent (trace s2) = sent (trace s1) /\
        main s2 =
          M_Returned None
            [ErrContext Canceled; ErrStatus 1 "context canceled"].
Proof.
  eexists. split; [vm_compute; reflexivity|].
  match goal with
  | |- ex (fun s1 => exec (AMainCtxDone ?r) ?s = Some s1 /\ _) =>
      destruct (cancellation_during_wait s Canceled r)
        as (s1 & Hexec & Htrace & Hall & Hdone)
  end.
  - exists false, canceled_during_wait. vm_compute. reflexivity.
  - reflexivity.
  - reflexivity.
  - exists s1. split; [exact Hexec|]. split; [exact Htrace|].
    destruct (Hdone [ErrStatus 1 "context canceled"]) as (s2 & Hrun & Hret).
    exists s2. split; [exact Hrun|].
    split; [exact (proj1 (Hall _ _ Hrun)) | exact Hret].
Defined.

(* ===================================================================== *)
(** * Further properties of the code *)
(* ===================================================================== *)

(** ** The candidate translator, both ways *)

(** X1. Two local candidates with the same wire form are equal: the
    translation to wire form loses nothing. *)
Theorem iceCandidateInitToProto_injective a b :
  init_typed a -> init_typed b ->
  iceCandidateInitToProto a = iceCandidateInitToProto b -> a = b.
Proof.
  intros Ha Hb Heq.
  rewrite <- (fromProto_toProto a Ha), <- (fromProto_toProto b Hb).
  by rewrite Heq.
Qed.

(** The theorem at the host candidate and at what its wire form
    translates back to. *)
Lemma iceCandidateInitToProto_injective_witness :
  ToJSON host_candidate
    = iceCandidateFromProto (iceCandidateInitToProto (ToJSON host_candidate)).
Proof.
  apply iceCandidateInitToProto_injective.
  - intros v [= <-]; unfold is_uint16; lia.
  - intros v Hv. vm_compute in Hv. injection Hv as <-.
    unfold is_uint16; lia.
  - reflexivity.
Defined.

Lemma uint16_fixed v : is_uint32 v -> (uint16 v = v <-> is_uint16 v).
Proof.
  unfold is_uint32, is_uint16, uint16. intros Hv. split.
  - intros <-. apply Z.mod_pos_bound. lia.
  - intros ?. apply Z.mod_small. lia.
Qed.

(** X2. A wire candidate survives the translation to local form and back
    exactly when its line index, if present, is below 2^16. *)
Theorem wire_round_trip_iff p :
  proto_typed p ->
  (iceCandidateInitToProto (iceCandidateFromProto p) = p <->
   forall v, SdpmLineIndex p = Some v -> is_uint16 v).
Proof.
  intros Hp. destruct p as [c m l u]. unfold proto_typed in Hp. simpl in *.
  unfold iceCandidateInitToProto, iceCandidateFromProto. simpl. split.
  - intros Heq v ->. injection Heq as _ Hl _.
    assert (is_uint32 v) as Hv by by apply Hp.
    assert (is_uint16 (uint16 v)) as Hr
      by (unfold is_uint16, uint16; apply Z.mod_pos_bound; lia).
    rewrite uint32_of_uint16 in Hl by done. by apply uint16_fixed.
  - intros Hsmall. f_equal; [by destruct m | | by destruct u].
    destruct l as [v|]; [|done]. f_equal.
    assert (is_uint16 v) as Hv by by apply Hsmall.
    by rewrite uint16_of_uint16, uint32_of_uint16.
Qed.

(** The wire form of a host candidate survives; the candidate with line
    index 65536 does not. *)
Lemma wire_round_trip_iff_witness :
  iceCandidateInitToProto
    (iceCandidateFromProto (iceCandidateToProto host_candidate))
    = iceCandidateToProto host_candidate /\
  iceCandidateInitToProto (iceCandidateFromProto wide_index_candidate)
    <> wide_index_candidate.
Proof.
  split.
  - apply wire_round_trip_iff.
    + intros v [= <-]. unfold is_uint32. vm_compute. by split.
    + intros v [= <-]. unfold is_uint16. vm_compute. by split.
  - intros Heq.
    assert (proto_typed wide_index_candidate) as Hp
      by (intros v [= <-]; unfold is_uint32; lia).
    pose proof (proj1 (wire_round_trip_iff wide_index_candidate Hp) Heq
                  65536%Z eq_refl) as Hsmall.
    unfold is_uint16 in Hsmall. lia.
Defined.

(** ** Connection statistics *)

Import Stats.

Lemma visit_snd acc st :
  (visit acc st).2 =
    match report_of st with
    | Some (k, ip) => <[k := ip]> acc.2
    | None => acc.2
    end.
Proof.
  destruct acc as [id m]. destruct st as [id'|ty ct ip|]; simpl; try done.
  destruct (String.eqb ty StatsTypeRemoteCandidate); simpl; [|done].
  by destruct (String.eqb (candidateTypeName ct) ""); simpl.
Qed.

Lemma visit_fst acc st :
  (visit acc st).1 =
    match st with
    | PeerConnectionStats id => id
    | _ => acc.1
    end.
Proof.
  destruct acc as [id m]. destruct st as [id'|ty ct ip|]; simpl; try done.
  destruct (String.eqb ty StatsTypeRemoteCandidate); simpl; [|done].
  by destruct (String.eqb (candidateTypeName ct) ""); simpl.
Qed.

Lemma reported_report_of k ip st :
  reported k ip st <-> report_of st = Some (k, ip).
Proof.
  unfold reported. split.
  - intros (ct & -> & <- & Hne). simpl.
    apply String.eqb_neq in Hne. by rewrite Hne.
  - destruct st as [id|ty ct ip'|]; simpl; try done.
    destruct (String.eqb ty StatsTypeRemoteCandidate) eqn:Hty; simpl; [|done].
    destruct (String.eqb (candidateTypeName ct) "") eqn:Hk; simpl; [done|].
    intros [= <- <-]. apply String.eqb_eq in Hty as ->.
    apply String.eqb_neq in Hk. by exists ct.
Qed.

Lemma reported_kind k ip st :
  reported k ip st ->
  k = "relay"%string \/ k = "peer-reflexive"%string \/
  k = "server-reflexive"%string.
Proof. intros (ct & _ & <- & Hne). destruct ct; simpl in *; auto; done. Qed.

Lemma fold_visit_other l acc k :
  (forall st ip, st ∈ l -> report_of st <> Some (k, ip)) ->
  (fold_left visit l acc).2 !! k = acc.2 !! k.
Proof.
  revert acc. induction l as [|st l IH]; intros acc Hno; simpl; [done|].
  rewrite IH by (intros st' ip' ?; apply Hno; by right).
  rewrite visit_snd. destruct (report_of st) as [[k' ip']|] eqn:Hst; [|done].
  apply lookup_insert_ne. intros ->. by apply (Hno st ip'); [left|].
Qed.

Lemma fold_visit_sound l acc k ip :
  (fold_left visit l acc).2 !! k = Some ip ->
  acc.2 !! k = Some ip \/ exists st, st ∈ l /\ report_of st = Some (k, ip).
Proof.
  revert acc. induction l as [|st l IH]; intros acc; simpl; [auto|].
  intros [Hacc|(st' & Hin & Hst')]%IH.
  - rewrite visit_snd in Hacc.
    destruct (report_of st) as [[k' ip']|] eqn:Hst; [|auto].
    destruct (decide (k' = k)) as [->|Hne].
    + rewrite lookup_insert_eq in Hacc. injection Hacc as ->.
      right. exists st. split; [by left | done].
    + rewrite lookup_insert_ne in Hacc by done. auto.
  - right. exists st'. split; [by right | done].
Qed.

Lemma fold_visit_last l1 st l2 acc k ip :
  report_of st = Some (k, ip) ->
  (forall st' ip', st' ∈ l2 -> report_of st' <> Some (k, ip')) ->
  (fold_left visit (l1 ++ st :: l2) acc).2 !! k = Some ip.
Proof.
  intros Hst Hno. rewrite fold_left_app. simpl.
  rewrite fold_visit_other by done. rewrite visit_snd, Hst.
  apply lookup_insert_eq.
Qed.

Lemma last_report l k :
  (forall st ip, st ∈ l -> report_of st <> Some (k, ip)) \/
  exists l1 st l2 ip, l = l1 ++ st :: l2 /\ report_of st = Some (k, ip) /\
    forall st' ip', st' ∈ l2 -> report_of st' <> Some (k, ip').
Proof.
  induction l as [|a l [Hno|(l1 & st & l2 & ip & -> & Hst & Hno)]].
  - left. by intros st ip ?%elem_of_nil.
  - destruct (report_of a) as [[k' ip']|] eqn:Ha.
    + destruct (decide (k' = k)) as [->|Hne].
      * right. exists [], a, l, ip'. by split.
      * left. intros st ip [->|Hin]%elem_of_cons; [congruence | by apply Hno].
    + left. intros st ip [->|Hin]%elem_of_cons; [congruence | by apply Hno].
  - right. by exists (a :: l1), st, l2, ip.
Qed.

Lemma fold_visit_id_other l acc :
  (forall id, PeerConnectionStats id ∉ l) ->
  (fold_left visit l acc).1 = acc.1.
Proof.
  revert acc. induction l as [|st l IH]; intros acc Hno; simpl; [done|].
  rewrite IH by (intros id Hin; apply (Hno id); by right).
  rewrite visit_fst. destruct st as [id| |]; try done.
  exfalso. apply (Hno id). by left.
Qed.

Lemma fold_visit_id_last l1 id l2 acc :
  (forall id', PeerConnectionStats id' ∉ l2) ->
  (fold_left visit (l1 ++ PeerConnectionStats id :: l2) acc).1 = id.
Proof.
  intros Hno. rewrite fold_left_app. simpl.
  rewrite fold_visit_id_other by done. by rewrite visit_fst.
Qed.

Lemma last_connection l :
  (forall id, PeerConnectionStats id ∉ l) \/
  exists l1 id l2, l = l1 ++ PeerConnectionStats id :: l2 /\
    forall id', PeerConnectionStats id' ∉ l2.
Proof.
  induction l as [|a l [Hno|(l1 & id & l2 & -> & Hno)]].
  - left. by intros id ?%elem_of_nil.
  - destruct a as [id| |].
    + right. by exists [], id, l.
    + left. intros id [?|Hin]%elem_of_cons; [done | by apply (Hno id)].
    + left. intros id [?|Hin]%elem_of_cons; [done | by apply (Hno id)].
  - right. by exists (a :: l1), id, l2.
Qed.

Lemma getPeerConnectionStats_unfold stats :
  getPeerConnectionStats stats =
    {| ID := (fold_left visit stats (""%string, ∅)).1;
       RemoteCandidates := (fold_left visit stats (""%string, ∅)).2 |}.
Proof.
  unfold getPeerConnectionStats.
  by destruct (fold_left visit stats (""%string, ∅)).
Qed.

(** X3. Every entry of [RemoteCandidates] is keyed "relay", "peer-reflexive"
    or "server-reflexive" and holds the address of a remote candidate of
    that kind in the report: host candidates and local candidates are
    never listed. *)
Theorem stats_entries_from_remote_candidates stats k ip :
  RemoteCandidates (getPeerConnectionStats stats) !! k = Some ip ->
  (k = "relay"%string \/ k = "peer-reflexive"%string \/
   k = "server-reflexive"%string) /\
  exists ct,
    ICECandidateStats StatsTypeRemoteCandidate ct ip ∈ stats /\
    candidateTypeName ct = k /\
    ct <> ICECandidateTypeHost /\ ct <> ICECandidateTypeUnknown.
Proof.
  rewrite getPeerConnectionStats_unfold. simpl.
  intros [Hempty|(st & Hin & Hst)]%fold_visit_sound; [done|].
  apply reported_report_of in Hst.
  split; [by eapply reported_kind|].
  destruct Hst as (ct & -> & <- & Hne).
  exists ct. split_and!; try done; by intros ->.
Qed.

(** In the sample report the relay entry is the remote relay candidate,
    not the local one. *)
Lemma stats_entries_from_remote_candidates_witness :
  RemoteCandidates (getPeerConnectionStats sample_report) !! "relay"%string
    = Some "198.51.100.7"%string /\
  exists ct,
    ICECandidateStats StatsTypeRemoteCandidate ct "198.51.100.7"
      ∈ sample_report /\
    candidateTypeName ct = "relay"%string /\
    ct <> ICECandidateTypeHost /\ ct <> ICECandidateTypeUnknown.
Proof.
  assert (RemoteCandidates (getPeerConnectionStats sample_report)
            !! "relay"%string = Some "198.51.100.7"%string) as Hrelay
    by (vm_compute; reflexivity).
  split; [exact Hrelay|].
  exact (proj2 (stats_entries_from_remote_candidates _ _ _ Hrelay)).
Defined.

(** X4. The entry of a kind is the address of the last remote candidate of
    that kind that the loop visits; in particular a kind with a remote
    candidate in the report is always listed. *)
Theorem stats_last_candidate_wins l1 ct ip l2 :
  candidateTypeName ct <> ""%string ->
  (forall ct' ip',
     ICECandidateStats StatsTypeRemoteCandidate ct' ip' ∈ l2 ->
     candidateTypeName ct' <> candidateTypeName ct) ->
  RemoteCandidates
    (getPeerConnectionStats
       (l1 ++ ICECandidateStats StatsTypeRemoteCandidate ct ip :: l2))
    !! candidateTypeName ct = Some ip.
Proof.
  intros Hne Hlast. rewrite getPeerConnectionStats_unfold. simpl.
  apply fold_visit_last.
  - apply reported_report_of. by exists ct.
  - intros st' ip' Hin Hst'. apply reported_report_of in Hst'.
    destruct Hst' as (ct' & -> & Heq & _). by eapply Hlast.
Qed.

Lemma stats_last_candidate_wins_witness :
  RemoteCandidates
    (getPeerConnectionStats
       ([ICECandidateStats StatsTypeRemoteCandidate ICECandidateTypeRelay
           "198.51.100.7"] ++
        ICECandidateStats StatsTypeRemoteCandidate ICECandidateTypeRelay
          "198.51.100.8" :: [OtherStats]))
    !! "relay"%string = Some "198.51.100.8"%string.
Proof.
  apply (stats_last_candidate_wins _ ICECandidateTypeRelay).
  - done.
  - intros ct' ip' [?|?%elem_of_nil]%elem_of_cons; done.
Defined.

(** X5. [ID] is the identifier of the last connection entry that the loop
    visits, and the empty string when the report has none. *)
Theorem stats_id_of_last_connection stats :
  ((forall id, PeerConnectionStats id ∉ stats) ->
   ID (getPeerConnectionStats stats) = ""%string) /\
  (forall l1 id l2,
     stats = l1 ++ PeerConnectionStats id :: l2 ->
     (forall id', PeerConnectionStats id' ∉ l2) ->
     ID (getPeerConnectionStats stats) = id).
Proof.
  rewrite getPeerConnectionStats_unfold. simpl. split.
  - intros Hno. by rewrite fold_visit_id_other.
  - intros l1 id l2 -> Hno. by apply fold_visit_id_last.
Qed.

Lemma stats_id_of_last_connection_witness :
  ID (getPeerConnectionStats
        ([OtherStats] ++ PeerConnectionStats "PeerConnection-1" ::
         [ICECandidateStats StatsTypeRemoteCandidate ICECandidateTypeRelay
            "198.51.100.7"]))
    = "PeerConnection-1"%string /\
  ID (getPeerConnectionStats [OtherStats]) = ""%string.
Proof.
  split.
  - apply (proj2 (stats_id_of_last_connection _) [OtherStats]
             "PeerConnection-1"%string
             [ICECandidateStats StatsTypeRemoteCandidate ICECandidateTypeRelay
                "198.51.100.7"]); [done|].
    intros id' [?|?%elem_of_nil]%elem_of_cons; done.
  - apply (proj1 (stats_id_of_last_connection _)).
    intros id [?|?%elem_of_nil]%elem_of_cons; done.
Defined.

(** X6. When no kind has remote candidates with different addresses and
    the report has no two connection entries with different identifiers,
    the result does not depend on the order in which the report is
    visited. *)
Theorem stats_independent_of_visit_order stats stats' :
  stats ≡ₚ stats' -> unambiguous stats ->
  getPeerConnectionStats stats = getPeerConnectionStats stats'.
Proof.
  intros Hperm [Hips Hids]. rewrite !getPeerConnectionStats_unfold. f_equal.
  - destruct (last_connection stats) as [Hno|(l1 & id & l2 & Heq & Hno)].
    + rewrite !fold_visit_id_other; [done| |done].
      intros id Hin. apply (Hno id). by rewrite Hperm.
    + destruct (last_connection stats')
        as [Hno'|(l1' & id' & l2' & Heq' & Hno')].
      * exfalso. apply (Hno' id). rewrite <- Hperm, Heq.
        apply elem_of_app. right. by left.
      * rewrite (f_equal (fun l => (fold_left visit l (""%string, ∅)).1) Heq).
        rewrite (f_equal (fun l => (fold_left visit l (""%string, ∅)).1) Heq').
        simpl.
        rewrite (fold_visit_id_last l1 id l2), (fold_visit_id_last l1' id' l2')
          by done.
        apply Hids; [rewrite Heq | rewrite Hperm, Heq'];
          apply elem_of_app; right; by left.
  - apply map_eq. intros k.
    destruct (last_report stats k)
      as [Hno|(l1 & st & l2 & ip & Heq & Hst & Hno)].
    + rewrite !fold_visit_other; [done| |done].
      intros st ip Hin. apply Hno. by rewrite Hperm.
    + destruct (last_report stats' k)
        as [Hno'|(l1' & st' & l2' & ip' & Heq' & Hst' & Hno')].
      * exfalso. apply (Hno' st ip); [|done]. rewrite <- Hperm, Heq.
        apply elem_of_app. right. by left.
      * rewrite (f_equal (fun l => (fold_left visit l (""%string, ∅)).2) Heq).
        rewrite (f_equal (fun l => (fold_left visit l (""%string, ∅)).2) Heq').
        simpl.
        rewrite (fold_visit_last l1 st l2 _ k ip),
          (fold_visit_last l1' st' l2' _ k ip') by done.
        f_equal. apply (Hips k ip ip' st st').
        -- rewrite Heq. apply elem_of_app. right. by left.
        -- rewrite Hperm, Heq'. apply elem_of_app. right. by left.
        -- by apply reported_report_of.
        -- by apply reported_report_of.
Qed.

(** A report with one relay candidate and the connection entry gives the
    same result when it is visited in the other order. *)
Lemma stats_independent_of_visit_order_witness :
  getPeerConnectionStats
    [PeerConnectionStats "PeerConnection-1";
     ICECandidateStats StatsTypeRemoteCandidate ICECandidateTypeRelay
       "198.51.100.7"] =
  getPeerConnectionStats
    [ICECandidateStats StatsTypeRemoteCandidate ICECandidateTypeRelay
       "198.51.100.7";
     PeerConnectionStats "PeerConnection-1"].
Proof.
  apply stats_independent_of_visit_order; [apply perm_swap|]. split.
  - intros k ip1 ip2 st1 st2 H1 H2 R1%reported_report_of R2%reported_report_of.
    rewrite !elem_of_cons, elem_of_nil in H1, H2.
    destruct_or!; simplify_eq; simpl in *; congruence.
  - intros id1 id2 H1 H2. rewrite !elem_of_cons, elem_of_nil in H1, H2.
    destruct_or!; simplify_eq; done.
Defined.

(** ** The connection factory for the server role *)

Ltac in_calls :=
  rewrite ?elem_of_app, ?elem_of_cons, ?elem_of_nil; intuition congruence.

Lemma server_body_error env sdp disableTrickle :
  Server.b_successful (Server.body env sdp disableTrickle) = false ->
  Server.b_err (Server.body env sdp disableTrickle) <> [].
Proof.
  unfold Server.body, Server.stop.
  repeat case_match; simpl; intros; by simplify_eq.
Qed.

Lemma server_body_success env sdp disableTrickle :
  Server.b_successful (Server.body env sdp disableTrickle) = true <->
  Server.CreateDataChannel_err env = [] /\ Server.DecodeSDP_err env = [] /\
  Server.SetRemoteDescription_err env = [] /\
  (disableTrickle = true ->
   Server.CreateAnswer_err env = [] /\
   Server.SetLocalDescription_err env = [] /\ Server.wait env = None).
Proof.
  unfold Server.body, Server.stop. repeat case_match; simpl; subst;
    split; try done; try (intros (? & ? & ? & ?); try done);
    try (by match goal with H : true = true -> _ |- _ =>
                  destruct (H eq_refl) as (? & ? & ?) end);
    by split_and!.
Qed.

(** X7. The server factory returns a nil error exactly when every call it
    makes returns nil and, with trickle disabled, gathering completes
    before the context ends.  It then returns the peer connection and the
    data channel, never closes the connection, and has applied the offer
    before, with trickle disabled only, creating the answer, installing it
    and waiting for the end of gathering. *)
Theorem server_factory_success env sdp disableTrickle :
  let r := Server.newPeerConnectionForServer env sdp disableTrickle in
  (Server.err r = [] <-> Server.all_well env disableTrickle) /\
  (Server.err r = [] ->
   Server.pc r = Some Server.thePC /\ Server.dc r = Some Server.theDC /\
   Server.calls r =
     [Server.C_newWebRTCAPI; Server.C_NewPeerConnection;
      Server.C_CreateDataChannel; Server.C_OnError; Server.C_DecodeSDP sdp;
      Server.C_SetRemoteDescription sdp] ++
     (if disableTrickle
      then [Server.C_CreateAnswer; Server.C_SetLocalDescription;
            Server.C_GatheringCompletePromise]
      else [])).
Proof.
  cbv zeta. unfold Server.newPeerConnectionForServer, Server.all_well.
  pose proof (server_body_error env sdp disableTrickle) as Herr.
  pose proof (server_body_success env sdp disableTrickle) as Hok.
  destruct (Server.newWebRTCAPI_err env) as [|e1 l1] eqn:H1; simpl;
    [|split; [split; [done | by intros (? & _)] | done]].
  destruct (Server.NewPeerConnection_err env) as [|e2 l2] eqn:H2; simpl;
    [|split; [split; [done | by intros (_ & ? & _)] | done]].
  destruct (Server.b_successful (Server.body env sdp disableTrickle))
    eqn:Hs; simpl.
  - destruct Hok as [Hok _]. specialize (Hok eq_refl).
    destruct Hok as (H3 & H4 & H5 & H6).
    unfold Server.body in *. rewrite H3, H4, H5 in *. simpl in *.
    destruct disableTrickle.
    + destruct (H6 eq_refl) as (H7 & H8 & H9). rewrite H7, H8, H9. simpl.
      split; [split; [intros _; by split_and! | done] | done].
    + simpl. split; [split; [intros _; by split_and! | done] | done].
  - specialize (Herr eq_refl). unfold multierr_Combine.
    assert (Server.b_err (Server.body env sdp disableTrickle) ++
              Server.Close_err env <> []) as Hne
      by (intros [? _]%app_eq_nil; done).
    split; [split; [done|] | done].
    intros (_ & _ & H3 & H4 & H5 & H6).
    destruct Hok as [_ Hok].
    assert (false = true) as Hs' by (apply Hok; by split_and!).
    done.
Qed.

Lemma server_factory_success_witness :
  Server.err (Server.newPeerConnectionForServer Server.quiet "offer" true)
    = [] /\
  Server.pc (Server.newPeerConnectionForServer Server.quiet "offer" true)
    = Some Server.thePC.
Proof.
  assert (Server.err
            (Server.newPeerConnectionForServer Server.quiet "offer" true) = [])
    as Hnil by reflexivity.
  split; [exact Hnil|].
  exact (proj1 (proj2 (server_factory_success Server.quiet "offer" true) Hnil)).
Defined.

(** X8. When the server factory returns an error, either no peer
    connection was created, none is returned and [Close] is not called, or
    the connection is returned closed: [Close] is the last call, made
    once, and what it returned is combined after the error of the step
    that failed. *)
Theorem server_factory_failure_closes env sdp disableTrickle :
  let r := Server.newPeerConnectionForServer env sdp disableTrickle in
  Server.err r <> [] ->
  (Server.pc r = None /\ Server.dc r = None /\
   (Server.C_Close ∉ Server.calls r) /\
   (Server.C_CreateDataChannel ∉ Server.calls r)) \/
  (Server.pc r = Some Server.thePC /\
   exists cause cs,
     cause <> [] /\ Server.err r = cause ++ Server.Close_err env /\
     Server.calls r = cs ++ [Server.C_Close] /\ Server.C_Close ∉ cs).
Proof.
  cbv zeta. unfold Server.newPeerConnectionForServer.
  pose proof (server_body_error env sdp disableTrickle) as Herr.
  destruct (Server.newWebRTCAPI_err env) as [|e1 l1] eqn:H1; simpl.
  2: { intros _. left. split_and!; try done;
       rewrite !elem_of_cons, elem_of_nil; intros ?; by destruct_or!. }
  destruct (Server.NewPeerConnection_err env) as [|e2 l2] eqn:H2; simpl.
  2: { intros _. left. split_and!; try done;
       rewrite !elem_of_cons, elem_of_nil; intros ?; by destruct_or!. }
  destruct (Server.b_successful (Server.body env sdp disableTrickle))
    eqn:Hs; simpl.
  - intros Hne. exfalso. apply Hne. revert Hs.
    unfold Server.body, Server.stop. repeat case_match; simpl; done.
  - intros _. right. split; [done|].
    exists (Server.b_err (Server.body env sdp disableTrickle)),
      (Server.C_newWebRTCAPI :: Server.C_NewPeerConnection ::
       Server.b_calls (Server.body env sdp disableTrickle)).
    split_and!; try done; [by apply Herr|].
    unfold Server.body, Server.stop. repeat case_match; simpl; in_calls.
Qed.

Lemma server_factory_failure_closes_witness :
  Server.err
    (Server.newPeerConnectionForServer Server.failing_answer "offer" true)
    = [ErrOther "invalid state"; ErrOther "close failed"] /\
  exists cause cs,
    cause <> [] /\
    Server.err
      (Server.newPeerConnectionForServer Server.failing_answer "offer" true)
      = cause ++ Server.Close_err Server.failing_answer /\
    Server.calls
      (Server.newPeerConnectionForServer Server.failing_answer "offer" true)
      = cs ++ [Server.C_Close] /\ Server.C_Close ∉ cs.
Proof.
  split; [reflexivity|].
  destruct (server_factory_failure_closes Server.failing_answer "offer" true)
    as [(Hpc & _)|(_ & Hclosed)]; [done | done | exact Hclosed].
Defined.

(** X9. The server factory creates an answer only with trickle disabled
    and only after [SetRemoteDescription] has returned nil for the offer
    it was given; with trickle enabled it neither creates nor installs an
    answer and does not wait for gathering. *)
Theorem server_factory_answer_after_offer env sdp disableTrickle :
  let r := Server.newPeerConnectionForServer env sdp disableTrickle in
  (Server.C_CreateAnswer ∈ Server.calls r ->
   disableTrickle = true /\ Server.SetRemoteDescription_err env = [] /\
   Server.C_SetRemoteDescription sdp ∈ Server.calls r) /\
  (disableTrickle = false ->
   (Server.C_CreateAnswer ∉ Server.calls r) /\
   (Server.C_SetLocalDescription ∉ Server.calls r) /\
   (Server.C_GatheringCompletePromise ∉ Server.calls r)).
Proof.
  cbv zeta.
  unfold Server.newPeerConnectionForServer, Server.body, Server.stop.
  split; [|intros ->]; repeat case_match; simpl; subst; in_calls.
Qed.

Lemma server_factory_answer_after_offer_witness :
  Server.C_CreateAnswer
    ∈ Server.calls (Server.newPeerConnectionForServer Server.quiet "offer" true)
  /\ Server.C_SetRemoteDescription "offer"
    ∈ Server.calls (Server.newPeerConnectionForServer Server.quiet "offer" true).
Proof.
  assert (Server.C_CreateAnswer
            ∈ Server.calls
                (Server.newPeerConnectionForServer Server.quiet "offer" true))
    as Hin by (cbn; repeat constructor).
  split; [exact Hin|].
  exact (proj2 (proj2 (proj1
           (server_factory_answer_after_offer Server.quiet "offer" true) Hin))).
Defined.

(** ** The receive goroutine *)

Import Teardown.

Lemma remote_once_inv_step s a s' :
  reachable s -> remote_once_inv s -> exec a s = Some s' -> remote_once_inv s'.
Proof.
  intros Hr Hinv Hexec.
  destruct (init_inv_reachable s Hr) as (_ & _ & _ & Hspawn).
  destruct a; exec_cases Hexec; unfold remote_once_inv in *; simpl in *;
    try done;
    try (match goal with
         | H : exch _ = _ |- _ => rewrite H in Hinv; simpl in Hinv
         end);
    try (rewrite (Hspawn eq_refl) in Hinv; simpl in Hinv);
    repeat case_match; simplify_eq; try done; try lia.
Qed.

Lemma remote_once_inv_reachable s : reachable s -> remote_once_inv s.
Proof.
  apply reachable_invariant; [done | eauto using remote_once_inv_step].
Qed.

(** X10. In a dial attempt [SetRemoteDescription] is called at most once,
    under every interleaving and whatever the stream delivers. *)
Theorem remote_description_set_at_most_once s :
  reachable s -> remote_calls (trace s) <= 1.
Proof.
  intros Hr. pose proof (remote_once_inv_reachable s Hr) as Hinv.
  unfold remote_once_inv in Hinv. repeat case_match; lia.
Qed.

Lemma remote_description_set_at_most_once_witness :
  exists s, run trickle_after_init (initial false) = Some s /\
    remote_calls (trace s) = 1 /\ remote_calls (trace s) <= 1.
Proof.
  eexists. split; [vm_compute; reflexivity|]. split; [reflexivity|].
  apply remote_description_set_at_most_once.
  exists false, trickle_after_init. vm_compute. reflexivity.
Defined.

(** X11. A second init message makes [exchangeCandidates] return "got init
    stage more than once": the session identifier is kept,
    [SetRemoteDescription] is not called for it, and the goroutine handles
    no further message. *)
Theorem duplicate_init_rejected s haveInit id init s1 :
  reachable s -> exch s = E_Recv haveInit ->
  init_received (trace s) = true ->
  exec (ARecv (inl {| respUuid := id; respStage := StageInit init |})) s
    = Some s1 ->
  exch s1 = E_SendErr [ErrInitTwice] /\ uuid s1 = uuid s /\
  remote_calls (trace s1) = remote_calls (trace s) /\
  (forall acts s2, run acts s1 = Some s2 ->
     aborted (exch s2) /\ added (trace s2) = added (trace s)).
Proof.
  intros Hr Hexch Hinit Hexec.
  destruct (init_inv_reachable s Hr) as (_ & Hknows & _).
  rewrite Hexch in Hknows. simpl in Hknows.
  destruct haveInit.
  2: { apply assigned_init_received in Hknows. congruence. }
  assert (reachable s1) as Hr1 by by eapply reachable_step.
  simpl in Hexec. unfold exch_recv, on_message in Hexec.
  rewrite Hexch in Hexec. simpl in Hexec. simplify_eq.
  split_and!; try done.
  intros acts s2 Hrun. by apply aborted_run in Hrun.
Qed.

Lemma duplicate_init_rejected_witness :
  exists s s1,
    run trickle_after_init (initial false) = Some s /\
    exec (ARecv (inl {| respUuid := "session-2";
                        respStage := StageInit (Some {| Sdp := "answer" |}) |}))
      s = Some s1 /\
    uuid s = "session-1"%string /\
    exch s1 = E_SendErr [ErrInitTwice] /\ uuid s1 = uuid s.
Proof.
  eexists. eexists. split; [vm_compute; reflexivity|].
  split; [vm_compute; reflexivity|]. split; [reflexivity|].
  refine (let H := duplicate_init_rejected _ true _ _ _ _ _ _ _ in
          conj (proj1 H) (proj1 (proj2 H))).
  - exists false, trickle_after_init. vm_compute. reflexivity.
  - reflexivity.
  - reflexivity.
  - vm_compute. reflexivity.
Defined.

Lemma from_update_cons e c t : from_update c t -> from_update c (e :: t).
Proof.
  intros (Hra & u & p & Hin & -> & Hu). split; [|exists u, p; split_and!].
  - by rewrite remote_applied_cons, Hra, orb_true_r.
  - by right.
  - done.
  - by apply assigned_cons_Some.
Qed.

Lemma applied_inv_step s a s' :
  reachable s -> applied_inv s -> exec a s = Some s' -> applied_inv s'.
Proof.
  intros Hr Hinv Hexec.
  destruct (init_inv_reachable s Hr) as (Huuid & Hknows & _ & Hspawn).
  destruct (signal_inv_reachable s Hr) as (_ & Hclose & _ & _).
  destruct a; exec_cases Hexec; destruct Hinv as [Hjust Hpc];
    unfold applied_inv; simpl;
    try (by split);
    try (match goal with
         | H : exch _ = _ |- _ =>
             rewrite ?H in Hpc; rewrite ?H in Hknows; rewrite ?H in Hclose;
             simpl in Hpc, Hknows
         end);
    try done;
    (split;
     [first [done | split; [intros c' r' Heq; try discriminate|done]]|]);
    try (by simplify_eq);
    try (destruct (exch s) as [|[]|[]| | | | | | |]; try done;
         by apply from_update_cons);
    try (by apply Hclose);
    try (by destruct Hpc).
  destruct haveInit; [|done]. destruct Hknows as [u Hu].
  rewrite Hu in Huuid. simpl in Huuid. subst u.
  apply negb_false_iff, String.eqb_eq in H3.
  destruct c as [id stage]. simpl in *. subst id stage.
  split; [by rewrite remote_applied_cons, Hpc, orb_true_r|].
  exists (uuid s), p. split_and!; [by left | done |].
  by apply assigned_cons_Some.
Qed.

Lemma applied_inv_reachable s : reachable s -> applied_inv s.
Proof.
  apply reachable_invariant; [done | eauto using applied_inv_step].
Qed.

Lemma added_justified_split later c r earlier :
  added_justified (later ++ EvAddICECandidate c r :: earlier) ->
  from_update c earlier.
Proof.
  induction later as [|e later IH]; simpl; intros [H1 H2]; eauto.
Qed.

(** X12. Every candidate [AddICECandidate] is called with was carried by
    an update message received earlier under the session identifier
    assigned by the init message, is its translation to local form, and is
    applied only after [SetRemoteDescription] returned nil. *)
Theorem added_candidates_come_from_updates s later c r earlier :
  reachable s -> trace s = later ++ EvAddICECandidate c r :: earlier ->
  remote_applied earlier = true /\
  exists u p,
    EvRecv (update_of u p) ∈ earlier /\ c = iceCandidateFromProto p /\
    assigned earlier = Some u.
Proof.
  intros Hr Heq. destruct (applied_inv_reachable s Hr) as [Hjust _].
  rewrite Heq in Hjust. by apply added_justified_split in Hjust.
Qed.


Lemma added_candidates_come_from_updates_witness :
  exists s,
    run (trickle_after_init ++
         [ARecv (inl (update_message "session-1")); AExchange []])
      (initial false) = Some s /\
    added (trace s) = [ToJSON host_candidate] /\
    forall later c r earlier,
      trace s = later ++ EvAddICECandidate c r :: earlier ->
      remote_applied earlier = true.
Proof.
  eexists. split; [vm_compute; reflexivity|]. split; [reflexivity|].
  intros later c r earlier Heq.
  refine (proj1 (added_candidates_come_from_updates _ later c r earlier _ Heq)).
  exists false, (trickle_after_init ++
                 [ARecv (inl (update_message "session-1")); AExchange []]).
  vm_compute. reflexivity.
Defined.

(** ** The initial request and the updates *)

Lemma call_inv_step s a s' :
  reachable s -> call_inv s -> exec a s = Some s' -> call_inv s'.
Proof.
  intros Hr Hinv Hexec.
  destruct (signal_inv_reachable s Hr) as (_ & _ & Hhooks & _).
  destruct a; exec_cases Hexec;
    destruct Hinv as (Hlen & Hbefore & Hnone & Hupd);
    unfold call_inv; simpl;
    try (match goal with
         | H : main _ = _ |- _ =>
             rewrite ?H in Hbefore; rewrite ?H in Hnone;
             simpl in Hbefore, Hnone
         end);
    try (match goal with
         | H : exch _ = _ |- _ => rewrite ?H in Hnone
         end);
    try (match goal with
         | H : hooks _ !! _ = Some _ |- _ =>
             eapply Forall_lookup_1 in Hhooks; [|exact H]; simpl in Hhooks
         end);
    try (rewrite (Hbefore eq_refl) in * );
    split_and!; simpl; try done; try lia; try tauto;
    try (intros c' req' _ Hc; by destruct (Hnone Hc) as (? & ? & ?));
    try (intros c' req' _ Hc; destruct (Hnone Hc) as (? & ? & ?);
         rewrite Hhooks in *; done);
    try (intros Hc; destruct (Hnone Hc) as (? & ? & ?); congruence).
Qed.

Lemma call_inv_reachable s : reachable s -> call_inv s.
Proof.
  apply reachable_invariant; [|eauto using call_inv_step].
  intros b. unfold call_inv. simpl. split_and!; [lia | done | done | done].
Qed.

Lemma updates_after_call_split later c req earlier :
  updates_after_call (later ++ EvCallUpdate c req :: earlier) ->
  calls earlier <> [].
Proof.
  induction later as [|e later IH]; simpl; intros [H1 H2]; eauto.
Qed.

Lemma updates_after_call_none t :
  updates_after_call t -> calls t = [] -> updates t = [].
Proof.
  induction t as [|e t IH]; simpl; [done|]. intros [He Ht] Hc.
  destruct e; simpl in *; try (by apply IH).
  exfalso. by eapply He.
Qed.

(** X13. A dial attempt sends the initial request at most once, and every
    update call to the signaling service comes after it: an attempt that
    returns without having made the initial call has sent no update. *)
Theorem updates_follow_the_initial_call s :
  reachable s ->
  length (calls (trace s)) <= 1 /\
  (forall later c req earlier,
     trace s = later ++ EvCallUpdate c req :: earlier -> calls earlier <> []) /\
  (calls (trace s) = [] -> updates (trace s) = []).
Proof.
  intros Hr. destruct (call_inv_reachable s Hr) as (Hlen & _ & _ & Hupd).
  split_and!; [done | |by apply updates_after_call_none].
  intros later c req earlier Heq. rewrite Heq in Hupd.
  by eapply updates_after_call_split.
Qed.

Lemma updates_follow_the_initial_call_witness :
  exists s, run trickle_success (initial false) = Some s /\
    length (calls (trace s)) = 1 /\ length (updates (trace s)) = 1 /\
    length (calls (trace s)) <= 1.
Proof.
  eexists. split; [vm_compute; reflexivity|].
  split; [reflexivity|]. split; [reflexivity|].
  refine (proj1 (updates_follow_the_initial_call _ _)).
  exists false, trickle_success. vm_compute. reflexivity.
Defined.

Lemma relayed_justified_mono g g' t :
  (forall i, i ∈ g -> i ∈ g') ->
  relayed_justified g t -> relayed_justified g' t.
Proof.
  intros Hsub. induction t as [|e t IH]; simpl; [done|].
  intros [He Ht]. split; [|by apply IH].
  intros c req Heq. destruct (He c req Heq) as [Hu Hp]. split; [done|].
  intros p Hupd. destruct (Hp p Hupd) as (Ha & i & Hi & ->). eauto.
Qed.

Lemma relay_inv_step s a s' :
  reachable s -> relay_inv s -> exec a s = Some s' -> relay_inv s'.
Proof.
  intros Hr Hinv Hexec.
  destruct (init_inv_reachable s Hr) as (Huuid & _ & Hset & _).
  destruct (signal_inv_reachable s Hr) as (_ & _ & Hsig & _).
  destruct a; exec_cases Hexec; destruct Hinv as [Hjust Hhooks];
    unfold relay_inv; simpl;
    try (by split);
    try (match goal with
         | H : hooks _ !! _ = Some _ |- _ =>
             pose proof (Forall_lookup_1 _ _ _ _ Hhooks H) as Harg;
             pose proof (Forall_lookup_1 _ _ _ _ Hsig H) as Hsend;
             simpl in Harg, Hsend
         end);
    (split;
     [first
        [ done
        | apply (relayed_justified_mono (gathered s));
          [intros; apply elem_of_app; by left | done]
        | split; [|done]; intros c' req' Heq; simplify_eq; simpl;
          (split; [done|]); intros p' Hp;
          first [ by simplify_eq
                | simplify_eq; split; [by apply Hset, Hsend | eauto] ] ]
     |first
        [ done
        | apply Forall_insert; [done | done]
        | apply Forall_insert; [done|]; simpl; intros ? ?; simplify_eq;
          eauto
        | apply Forall_app_2;
          [ first [done | eapply Forall_impl; [exact Hhooks|];
                   simpl; intros h Hh i Hi; apply elem_of_app; left; eauto]
          | constructor; [|done]; simpl; intros i Hi; simplify_eq;
            apply elem_of_app; right; by left ]
        | eapply Forall_impl; [exact Hhooks|];
          simpl; intros h Hh i Hi; apply elem_of_app; left; eauto ] ]).
Qed.

Lemma relay_inv_reachable s : reachable s -> relay_inv s.
Proof.
  apply reachable_invariant; [|eauto using relay_inv_step].
  intros b. by split.
Qed.

Lemma relayed_justified_split g later c req earlier :
  relayed_justified g (later ++ EvCallUpdate c req :: earlier) ->
  Uuid req = default ""%string (assigned earlier) /\
  forall p, Update req = Update_Candidate p ->
    is_Some (assigned earlier) /\
    exists i, i ∈ g /\ p = iceCandidateToProto i.
Proof.
  induction later as [|e later IH]; simpl; intros [H1 H2]; eauto.
Qed.

(** X14. Every update call carries the session identifier assigned by the
    init message received before it, or the empty string if none had been
    received; a candidate update is only sent with an identifier assigned,
    and carries the wire form of a candidate the engine gathered. *)
Theorem updates_carry_the_assigned_uuid s later c req earlier :
  reachable s -> trace s = later ++ EvCallUpdate c req :: earlier ->
  Uuid req = default ""%string (assigned earlier) /\
  forall p, Update req = Update_Candidate p ->
    is_Some (assigned earlier) /\
    exists i, i ∈ gathered s /\ p = iceCandidateToProto i.
Proof.
  intros Hr Heq. destruct (relay_inv_reachable s Hr) as [Hjust _].
  rewrite Heq in Hjust. by apply relayed_justified_split in Hjust.
Qed.

Lemma updates_carry_the_assigned_uuid_witness :
  exists s,
    run candidate_relayed (initial false) = Some s /\
    updates (trace s) =
      [(None, {| Uuid := "session-1";
                 Update := Update_Candidate
                             (iceCandidateToProto host_candidate) |})] /\
    forall later c req earlier,
      trace s = later ++ EvCallUpdate c req :: earlier ->
      Uuid req = default ""%string (assigned earlier).
Proof.
  eexists. split; [vm_compute; reflexivity|]. split; [reflexivity|].
  intros later c req earlier Heq.
  refine (proj1 (updates_carry_the_assigned_uuid _ later c req earlier _ Heq)).
  exists false, candidate_relayed. vm_compute. reflexivity.
Defined.

(** ** What is closed when [dialWebRTC] returns *)

Lemma resource_inv_step s a s' :
  reachable s -> resource_inv s -> exec a s = Some s' -> resource_inv s'.
Proof.
  intros Hr Hinv Hexec.
  destruct (call_inv_reachable s Hr) as (_ & Hbefore & _ & _).
  destruct a; exec_cases Hexec; unfold resource_inv, closing in *;
    simpl in *;
    try done;
    try (match goal with
         | H : main _ = _ |- _ =>
             rewrite ?H in Hinv; rewrite ?H in Hbefore;
             simpl in Hinv, Hbefore
         end);
    try (rewrite (Hbefore eq_refl) in * );
    try (destruct (main s); simpl in * );
    intuition (try done; try lia; try congruence).
Qed.

Lemma resource_inv_reachable s : reachable s -> resource_inv s.
Proof.
  apply reachable_invariant; [|eauto using resource_inv_step].
  intros b. by split_and!.
Qed.



(** X16. The closes [dialWebRTC] makes itself: in a dial attempt it calls
    the deferred [pc.Close()], the deferred [conn.Close()] and
    [clientCh.Close()] at most once each; when it returns without a channel
    after it has sent the initial request, it has made the deferred
    [pc.Close()] call and the deferred [conn.Close()] call exactly once
    each.  What [clientCh.Close()] and the data channel's [OnError]
    callback close on their own is not counted. *)
Theorem failure_closes_both_connections s :
  reachable s ->
  peer_closes (trace s) <= 1 /\ conn_closes (trace s) <= 1 /\
  channel_closes (trace s) <= 1 /\
  (forall err, main s = M_Returned None err -> calls (trace s) <> [] ->
     peer_closes (trace s) = 1 /\ conn_closes (trace s) = 1).
Proof.
  intros Hr. pose proof (resource_inv_reachable s Hr) as Hinv.
  unfold resource_inv, closing in Hinv. split_and!.
  - destruct (main s); simpl in *; intuition lia.
  - destruct (main s); simpl in *; intuition lia.
  - destruct (main s); simpl in *; intuition lia.
  - intros err Hmain Hcalls. rewrite Hmain in Hinv.
    destruct Hinv as (_ & _ & _ & _ & Hnone).
    destruct (Hnone eq_refl Hcalls). simpl in *. split; lia.
Qed.

Lemma failure_closes_both_connections_witness :
  exists s, run failed_dial (initial false) = Some s /\
    main s = M_Returned None [ErrUpdateBeforeInit] /\
    channel_closes (trace s) = 1 /\
    peer_closes (trace s) = 1 /\ conn_closes (trace s) = 1.
Proof.
  eexists. split; [vm_compute; reflexivity|]. split; [reflexivity|].
  split; [reflexivity|].
  refine (proj2 (proj2 (proj2 (failure_closes_both_connections _ _)))
            [ErrUpdateBeforeInit] _ _).
  - exists false, failed_dial. vm_compute. reflexivity.
  - reflexivity.
  - vm_compute. discriminate.
Defined.

(** ** After the return *)

Lemma teardown_inv_frame s s' :
  main s' = main s -> hookInstalled s' = hookInstalled s ->
  (hookInstalled s = false -> hooks s = [] -> hooks s' = []) ->
  (is_Some (exchangeCtxErr s) -> is_Some (exchangeCtxErr s')) ->
  (exch s = E_NotStarted -> exch s' = E_NotStarted) ->
  teardown_inv s -> teardown_inv s'.
Proof.
  unfold teardown_inv, alone. intros -> -> Hh Hc He [Hhooks Hpc].
  split; [auto|]. destruct (main s); intuition.
Qed.

Lemma teardown_inv_step s a s' :
  reachable s -> teardown_inv s -> exec a s = Some s' -> teardown_inv s'.
Proof.
  intros Hr Hinv Hexec.
  destruct (init_inv_reachable s Hr) as (_ & _ & _ & Hspawn).
  destruct a;
    try (apply (teardown_inv_frame s); [..|exact Hinv];
         clear Hinv Hspawn; exec_cases Hexec;
         first [done | by eauto | congruence
               | intros ? Hnil; rewrite Hnil in *; done]).
  all: exec_cases Hexec; destruct Hinv as [Hhooks Hpc];
    unfold teardown_inv, alone in *; simpl in *;
    match goal with
    | H : main _ = _ |- _ =>
        rewrite ?H in Hpc; rewrite ?H in Hspawn; simpl in Hpc, Hspawn
    end;
    (split; [first [done | intros Hf; rewrite (Hhooks Hf) in *; done]|]);
    simpl; try done; try tauto.
  - destruct Hpc as [? | ?]; [done | tauto].
  - right; left.
    match goal with H : exchangeCtxErr _ = Some _ |- _ => rewrite H end.
    by eexists.
  - right; left. by eexists.
Qed.

Lemma teardown_inv_reachable s : reachable s -> teardown_inv s.
Proof.
  apply (reachable_invariant (fun s => teardown_inv s)).
  - intros d. by split.
  - intros ? ? ? ?. by apply teardown_inv_step.
Qed.

Lemma winding_down_step k s a s' :
  winding_down k s -> exec a s = Some s' -> winding_down k s'.
Proof.
  unfold winding_down. intros [[c Hc] Hk] Hexec.
  destruct a; exec_cases Hexec;
    try (match goal with
         | H : exch _ = _ |- _ => rewrite H in Hk; simpl in Hk
         end);
    (split; [by eauto|]); simpl; lia.
Qed.

(** X17. Once [dialWebRTC] has returned, either it installed no hook and
    started no receive goroutine, or the exchange context is ended (the
    deferred [exchangeCancel] has run).  In that case nothing receives from
    [errCh] any more, and a goroutine blocked in [sendErr], the receive
    goroutine or a hook invocation, has one step only, the
    [exchangeCtx.Done()] case, which ends it without a call; a hook
    invocation at its entry returns at once; one at the select can take the
    [Done] case, the only case it can take while [remoteDescSet] is not
    closed; the receive goroutine at the head of its loop returns without
    calling [Recv], and one blocked in [Recv] takes at most one more
    message; and from then on no update reaches the signaling service. *)
Theorem goroutines_wind_down_after_return s ch err :
  reachable s -> main s = M_Returned ch err ->
  (alone s /\ hooks s = []) \/
  (is_Some (exchangeCtxErr s) /\
   (forall src r, exec (AMainRecvErr src r) s = None) /\
   (forall e, exch s = E_SendErr e ->
      (forall r, exec (AExchange r) s = Some (set_exch E_Done s)) /\
      (forall res, exec (ARecv res) s = None)) /\
   (forall haveInit r, exch s = E_Loop haveInit ->
      exists s', exec (AExchange r) s = Some s' /\ trace s' = trace s /\
        aborted (exch s')) /\
   (forall n h b r, hooks s !! n = Some h ->
      (hook_pc h = H_Entry \/ (exists e, hook_pc h = H_SendErr e) ->
       exec (AHook n b r) s = Some (set_hook n h H_Done s)) /\
      (hook_pc h = H_Select ->
       exec (AHook n false r) s = Some (set_hook n h H_Done s) /\
       (remoteDescSet s = false -> exec (AHook n true r) s = None))) /\
   (forall acts s2, run acts s = Some s2 ->
      sent (trace s2) = sent (trace s) /\
      received (trace s2) + recv_budget (exch s2)
        <= received (trace s) + recv_budget (exch s))).
Proof.
  intros Hr Hmain.
  destruct (teardown_inv_reachable s Hr) as [Hhooks Hpc].
  rewrite Hmain in Hpc.
  destruct Hpc as [[c Hc] | Halone];
    [right | left; split; [done|]; apply Hhooks, Halone].
  split; [by eexists|]. split_and!.
  - intros src r. simpl. unfold main_recv_err. by rewrite Hmain.
  - intros e He. split.
    + intros r. simpl. unfold exch_step. by rewrite He, Hc.
    + intros res. simpl. unfold exch_recv. by rewrite He.
  - intros haveInit r He. simpl. unfold exch_step. rewrite He, Hc.
    case_match; eexists; (split; [reflexivity|]); by simpl.
  - intros n h b r Hn. split.
    + intros [Hpc | [e Hpc]]; simpl; unfold hook_step;
        by rewrite Hn, Hpc, Hc.
    + intros Hpc. simpl. unfold hook_step. rewrite Hn, Hpc, Hc.
      split; [done|]. by intros ->.
  - intros acts s2 Hrun. split.
    + assert (after_cancellation s s2) as (_ & new & Hnew & Hall).
      { revert Hrun. apply (run_invariant (after_cancellation s)
                              (after_cancellation_step s)).
        split; [by eexists | by exists []]. }
      by rewrite Hnew, sent_ended.
    + assert (winding_down (received (trace s) + recv_budget (exch s)) s2)
        as [_ Hk]; [|done].
      revert Hrun.
      apply (run_invariant
               (winding_down (received (trace s) + recv_budget (exch s)))
               (winding_down_step _)).
      split; [by eexists | done].
Qed.

Lemma goroutines_wind_down_after_return_witness :
  exists s, run hook_waiting_at_return (initial false) = Some s /\
    hooks s !! 0 =
      Some {| hook_arg := Some host_candidate; hook_pc := H_Select |} /\
    exec (AHook 0 true []) s = None /\
    exists s', exec (AHook 0 false []) s = Some s' /\
      hooks s' !! 0 =
        Some {| hook_arg := Some host_candidate; hook_pc := H_Done |} /\
      trace s' = trace s.
Proof.
  eexists. split; [vm_compute; reflexivity|]. split; [reflexivity|].
  match goal with
  | |- exec _ ?s = None /\ _ =>
      destruct (goroutines_wind_down_after_return
                  s None [ErrUpdateBeforeInit])
        as [[_ Hh] | (_ & _ & _ & _ & Hhook & _)]
  end.
  - exists false, hook_waiting_at_return. vm_compute. reflexivity.
  - reflexivity.
  - discriminate Hh.
  - destruct (Hhook 0 _ false [] eq_refl) as [_ Hsel].
    destruct (Hsel eq_refl) as [Hdone Hnone].
    split; [exact (Hnone eq_refl)|].
    eexists. split; [exact Hdone|]. split; reflexivity.
Defined.

(** ** The session identifier *)

Lemma assigned_step s a s' u :
  assigned (trace s) = Some u -> exec a s = Some s' ->
  assigned (trace s') = Some u.
Proof.
  intros Ha Hexec. destruct a; exec_cases Hexec; simpl; by rewrite ?Ha.
Qed.

(** X18. The shared variable [uuid] is written once: from the first init
    message on, it holds that message's identifier for the rest of the dial
    attempt, whatever is received later. *)
Theorem session_identifier_fixed s u acts s' :
  reachable s -> assigned (trace s) = Some u -> run acts s = Some s' ->
  uuid s = u /\ uuid s' = u.
Proof.
  intros Hr Ha Hrun.
  assert (assigned (trace s') = Some u) as Ha'.
  { revert Hrun. apply (run_invariant (fun s => assigned (trace s) = Some u));
      [|done]. intros ? ? ? ? ?. by eapply assigned_step. }
  destruct (init_inv_reachable s Hr) as (Hu & _).
  destruct (init_inv_reachable s' (reachable_run _ _ _ Hr Hrun)) as (Hu' & _).
  rewrite Hu, Hu', Ha, Ha'. done.
Qed.

Lemma session_identifier_fixed_witness :
  exists s s',
    run trickle_after_init (initial false) = Some s /\
    run [ARecv (inl (update_message "session-2"))] s = Some s' /\
    exch s' = E_SendErr [ErrUuidMismatch "session-2" "session-1"] /\
    uuid s = "session-1"%string /\ uuid s' = "session-1"%string.
Proof.
  eexists. eexists. split; [vm_compute; reflexivity|].
  split; [vm_compute; reflexivity|]. split; [reflexivity|].
  match goal with
  | |- uuid ?s = _ /\ uuid ?s' = _ =>
      apply (session_identifier_fixed s "session-1"
               [ARecv (inl (update_message "session-2"))] s')
  end.
  - exists false, trickle_after_init. vm_compute. reflexivity.
  - reflexivity.
  - reflexivity.
Defined.

(** ** Cancellation while the vanilla factory waits *)

Lemma no_call_while_returning_step s a s' :
  returning (main s) /\ calls (trace s) = [] -> exec a s = Some s' ->
  returning (main s') /\ calls (trace s') = [].
Proof.
  intros [Hret Hcalls] Hexec.
  destruct a; exec_cases Hexec;
    try (match goal with
         | H : main _ = _ |- _ => rewrite H in Hret; simpl in Hret
         end);
    done.
Qed.

(** X19. With trickle disabled, when the caller's context ends while the
    factory waits for the end of gathering and the [ctx.Done()] case is
    taken, [dialWebRTC] returns no channel and the context's error combined
    with what the closes of the peer connection and of the control
    connection returned; the signaling service has then received neither
    the initial request nor any update. *)
Theorem gathering_wait_canceled s e r :
  reachable s -> main s = M_F_WaitGather -> ctxErr s = Some e ->
  exists s1, exec (AMainCtxDone r) s = Some s1 /\
    (forall acts s2 ch err,
       run acts s1 = Some s2 -> main s2 = M_Returned ch err ->
       ch = None /\ err = ErrContext e :: closes (trace s2) /\
       calls (trace s2) = [] /\ updates (trace s2) = []) /\
    (exists s2, run (replicate 3 (AMain [])) s1 = Some s2 /\
       main s2 = M_Returned None [ErrContext e]).
Proof.
  intros Hr Hmain Hctx.
  assert (exec (AMainCtxDone r) s =
          Some (set_main (M_Returning None [ErrContext e]
                            [D_pcClose; D_connClose]) s)) as Hexec.
  { simpl. unfold main_ctx_done. by rewrite Hctx, Hmain. }
  eexists. split; [exact Hexec|]. split.
  - intros acts s2 ch err Hrun Hret.
    assert (result_is None [ErrContext e] s2) as Hres.
    { eapply result_is_run; [|exact Hrun]. unfold result_is. simpl.
      destruct (closes_inv_reachable s Hr) as [Hret'| ->]; [|done].
      by rewrite Hmain in Hret'. }
    destruct (result_is_returned _ _ _ _ _ Hres Hret) as [-> ->].
    assert (returning (main s2) /\ calls (trace s2) = []) as [_ Hcalls].
    { revert Hrun.
      apply (run_invariant
               (fun s => returning (main s) /\ calls (trace s) = []));
        [apply no_call_while_returning_step|].
      split; [done|]. simpl.
      destruct (call_inv_reachable s Hr) as (_ & Hbefore & _).
      apply Hbefore. by rewrite Hmain. }
    split_and!; [done | done | done |].
    apply updates_after_call_none; [|done].
    apply call_inv_reachable. eapply reachable_run; [|exact Hrun].
    eapply reachable_step; [exact Hr | exact Hexec].
  - by apply (returning_completes [D_pcClose; D_connClose]).
Qed.

Lemma gathering_wait_canceled_witness :
  exists s,
    run canceled_while_gathering (initial true) = Some s /\
    exists s1, exec (AMainCtxDone []) s = Some s1 /\
      exists s2, run (replicate 3 (AMain [])) s1 = Some s2 /\
        main s2 = M_Returned None [ErrContext Canceled].
Proof.
  eexists. split; [vm_compute; reflexivity|].
  match goal with
  | |- ex (fun s1 => exec (AMainCtxDone ?r) ?s = Some s1 /\ _) =>
      destruct (gathering_wait_canceled s Canceled r)
        as (s1 & Hexec & _ & Hdone)
  end.
  - exists true, canceled_while_gathering. vm_compute. reflexivity.
  - reflexivity.
  - reflexivity.
  - exists s1. split; [exact Hexec | exact Hdone].
Defined.

(** ** The end of the stream *)

Lemma exch_done_step s a s' :
  reachable s -> exch s = E_Done -> exec a s = Some s' ->
  exch s' = E_Done /\ added (trace s') = added (trace s) /\
  remote_calls (trace s') = remote_calls (trace s).
Proof.
  intros Hr Hdone Hexec.
  destruct (init_inv_reachable s Hr) as (_ & _ & _ & Hspawn).
  destruct a; exec_cases Hexec; try done; try congruence.
  try match goal with
      | H : main _ = _ |- _ => rewrite H in Hspawn
      end.
  simpl in Hspawn. specialize (Hspawn eq_refl). congruence.
Qed.

(** X20. When [Recv] returns an error that is [io.EOF], the receive
    goroutine returns nil: it reports nothing, and for the rest of the dial
    attempt it offers no error to the orchestrator and calls neither
    [SetRemoteDescription] nor [AddICECandidate]; any other error of [Recv]
    is the one it offers on [errCh]. *)
Theorem stream_end_is_quiet s haveInit e err :
  reachable s -> exch s = E_Recv haveInit ->
  exists s1, exec (ARecv (inr (e :: err))) s = Some s1 /\
    trace s1 = trace s /\ main s1 = main s /\
    (errors_Is (e :: err) ErrEOF = false ->
     offered FromExchange s1 = Some (e :: err)) /\
    (errors_Is (e :: err) ErrEOF = true ->
     forall acts s2, run acts s1 = Some s2 ->
       exch s2 = E_Done /\ offered FromExchange s2 = None /\
       added (trace s2) = added (trace s) /\
       remote_calls (trace s2) = remote_calls (trace s)).
Proof.
  intros Hr Hexch.
  destruct (errors_Is (e :: err) ErrEOF) eqn:His.
  - assert (exec (ARecv (inr (e :: err))) s = Some (set_exch E_Done s))
      as Hexec.
    { simpl. unfold exch_recv. by rewrite Hexch, His. }
    eexists. split; [exact Hexec|]. split_and!; [done | done | done |].
    intros _ acts s2 Hrun.
    assert (reachable s2 /\ exch s2 = E_Done /\
            added (trace s2) = added (trace s) /\
            remote_calls (trace s2) = remote_calls (trace s))
      as (_ & Hdone & Hadded & Hremote).
    { revert Hrun.
      apply (run_invariant
               (fun s2 => reachable s2 /\ exch s2 = E_Done /\
                  added (trace s2) = added (trace s) /\
                  remote_calls (trace s2) = remote_calls (trace s))).
      - intros s3 a s4 (Hr3 & Hd3 & Ha3 & Hc3) Hstep.
        destruct (exch_done_step _ _ _ Hr3 Hd3 Hstep) as (? & ? & ?).
        split_and!; [by eapply reachable_step | done | congruence
                    | congruence].
      - split_and!; [by eapply reachable_step | done | done | done]. }
    split_and!; [done | | done | done]. simpl. by rewrite Hdone.
  - eexists. split.
    { simpl. unfold exch_recv. by rewrite Hexch, His. }
    split_and!; done.
Qed.

Lemma stream_end_is_quiet_witness :
  exists s,
    run trickle_after_init (initial false) = Some s /\
    exists s1, exec (ARecv (inr [ErrEOF])) s = Some s1 /\
      trace s1 = trace s /\ main s1 = M_doCall /\
      forall acts s2, run acts s1 = Some s2 ->
        exch s2 = E_Done /\ offered FromExchange s2 = None.
Proof.
  eexists. split; [vm_compute; reflexivity|].
  match goal with
  | |- ex (fun s1 => exec _ ?s = Some s1 /\ _) =>
      destruct (stream_end_is_quiet s true ErrEOF [])
        as (s1 & Hexec & Htrace & Hmain & _ & Hquiet)
  end.
  - exists false, trickle_after_init. vm_compute. reflexivity.
  - reflexivity.
  - exists s1. split; [exact Hexec|]. split; [exact Htrace|].
    split; [exact Hmain|]. intros acts s2 Hrun.
    destruct (Hquiet eq_refl acts s2 Hrun) as (? & ? & _). by split.
Defined.
